(** * glm_cli.py: a prompt relay over a streaming chat-completion call

    The script [.experiments/claude-glm-test/scripts/glm_cli.py] reads a
    credential from the process environment, reads a prompt from standard
    input, issues one streaming chat-completion request through the vendor
    client and relays the streamed text to standard output.

    The embedding follows the script statement by statement.  Python text
    is a sequence of code points; the interpreter's control effects
    (an [Exception] being raised, [sys.exit] raising [SystemExit]) and the
    process' interactions with its surroundings (environment, standard
    streams, the vendor client) are threaded through a small monad whose
    state records every interaction in order.

    The vendor library [zhipuai] and the service behind it are not part
    of the script: a process comes with a function that says, for each
    request, whether [create] raises or which response it returns, and a
    response is a finite sequence of chunks that ends or raises.  What
    it raises are instances of [Exception]; standard input holds text
    that is already decoded.

    Text written to [sys.stdout] is encoded with the error handler
    [strict]: a text the stream's codec cannot encode makes [print]
    raise [UnicodeEncodeError] before anything of it is written.  Which
    codec the interpreter gives the stream depends on the platform and
    on the environment ([PYTHONIOENCODING], the locale variables); it is
    a parameter of the development.  [sys.stderr] uses
    [backslashreplace] and accepts every text. *)

From Stdlib Require Import ZArith NArith Ascii String.
From stdpp Require Import base option list strings gmap.

Local Open Scope N_scope.

(** ** Python text *)

(** A Python [str] is a sequence of Unicode code points. *)
Abbreviation codepoint := N (only parsing).
Abbreviation str := (list codepoint) (only parsing).

(** Source literals.  A literal is written here as it stands in the
    (UTF-8 encoded) source file and decoded to its code points. *)
Fixpoint utf8_decode (bs : list N) : str :=
  match bs with
  | [] => []
  | b0 :: r0 =>
    if b0 <? 0x80 then b0 :: utf8_decode r0 else
    match r0 with
    | [] => [b0]
    | b1 :: r1 =>
      if b0 <? 0xE0 then ((b0 - 0xC0) * 64 + (b1 - 0x80)) :: utf8_decode r1 else
      match r1 with
      | [] => [b0; b1]
      | b2 :: r2 =>
        if b0 <? 0xF0
        then ((b0 - 0xE0) * 4096 + (b1 - 0x80) * 64 + (b2 - 0x80)) :: utf8_decode r2
        else
        match r2 with
        | [] => [b0; b1; b2]
        | b3 :: r3 =>
          ((b0 - 0xF0) * 262144 + (b1 - 0x80) * 4096 + (b2 - 0x80) * 64 + (b3 - 0x80))
            :: utf8_decode r3
        end
      end
    end
  end.

Definition lit (s : string) : str :=
  utf8_decode (map N_of_ascii (list_ascii_of_string s)).

(** [Py_UNICODE_ISSPACE]: the code points [str.strip()] removes when it
    is called without an argument (CPython's [_PyUnicode_IsWhitespace]). *)
Definition isspace (c : codepoint) : bool :=
  ((0x09 <=? c) && (c <=? 0x0D)) ||
  ((0x1C <=? c) && (c <=? 0x20)) ||
  (c =? 0x85) || (c =? 0xA0) || (c =? 0x1680) ||
  ((0x2000 <=? c) && (c <=? 0x200A)) ||
  (c =? 0x2028) || (c =? 0x2029) || (c =? 0x202F) || (c =? 0x205F) ||
  (c =? 0x3000).

Fixpoint dropwhile {A} (p : A → bool) (l : list A) : list A :=
  match l with
  | [] => []
  | x :: r => if p x then dropwhile p r else l
  end.

(** [s.lstrip()], [s.rstrip()], [s.strip()] *)
Definition lstrip (s : str) : str := dropwhile isspace s.
Definition rstrip (s : str) : str := reverse (dropwhile isspace (reverse s)).
Definition strip (s : str) : str := rstrip (lstrip s).

(** Truth value of a [str]: only the empty string is false. *)
Definition str_truthy (s : str) : bool :=
  match s with [] => false | _ :: _ => true end.

(** Truth value of an [Optional[str]]: [None] and [""] are false. *)
Definition truthy (o : option str) : bool :=
  match o with None => false | Some s => str_truthy s end.

(** ** Exceptions *)

(** An instance of (a subclass of) [Exception]: its class name and the
    text [str(e)] renders. *)
Record exception : Type := Exception { exc_class : string; exc_str : str }.

Definition IndexError (msg : string) : exception :=
  Exception "IndexError" (lit msg).

(** ** The vendor client, as the script uses it *)

(** [ZhipuAI(api_key=...)] *)
Record client : Type := ZhipuAI { api_key : option str }.

(** One entry of [messages]: [{"role": ..., "content": ...}] *)
Record message : Type := Message { role : str; msg_content : str }.

(** The keyword arguments of [client.chat.completions.create]. *)
Record request : Type := Request {
  model : str;
  messages : list message;
  stream : bool
}.

(** A streamed chunk, along the access path
    [chunk.choices[0].delta.content]. *)
Record ChoiceDelta : Type := Delta { content : option str }.
Record Choice : Type := MkChoice { delta : ChoiceDelta }.
Record chunk : Type := Chunk { choices : list Choice }.

(** The response object is an iterator: each [__next__] either hands out
    a chunk, ends the iteration ([StopIteration]) or raises. *)
Inductive response : Type :=
| StopIteration
| NextRaises (e : exception)
| NextChunk (c : chunk) (rest : response).

(** What [create] does for a request: raise, or return a response. *)
Inductive create_result : Type :=
| CreateRaises (e : exception)
| CreateReturns (r : response).

(** ** The process and its interactions *)

Inductive file : Type := stdout | stderr.

Inductive event : Type :=
| EnvironGet (name : string)            (* os.environ.get(name) *)
| StdinRead                             (* sys.stdin.read() *)
| Create (c : client) (req : request)   (* client.chat.completions.create *)
| Next                                  (* one step of [for chunk in response] *)
| Write (f : file) (data : str)         (* text handed to a stream *)
| Flush (f : file).

Record world : Type := World {
  environ : gmap string str;                   (* os.environ *)
  stdin : str;                                 (* unread standard input *)
  remote : client → request → create_result;   (* the service behind the client *)
  unencodable : str → option exception;        (* what encoding a text for
                                                  sys.stdout raises, if anything *)
  trace : list event                           (* interactions so far, oldest first *)
}.

(** How a piece of Python code ends: normally with a value, with a raised
    [Exception], or with [SystemExit] (which [except Exception] does not
    catch). *)
Inductive outcome (A : Type) : Type :=
| Normal (a : A)
| Raised (e : exception)
| SystemExit (code : Z).
Arguments Normal {A} a.
Arguments Raised {A} e.
Arguments SystemExit {A} code.

Definition Py (A : Type) : Type := world → outcome A * world.

#[global] Instance Py_ret : MRet Py := λ A a w, (Normal a, w).
#[global] Instance Py_bind : MBind Py := λ A B k m w,
  match m w with
  | (Normal a, w') => k a w'
  | (Raised e, w') => (Raised e, w')
  | (SystemExit c, w') => (SystemExit c, w')
  end.

Definition record (ev : event) (w : world) : world :=
  World (environ w) (stdin w) (remote w) (unencodable w) (trace w ++ [ev]).

Definition log (ev : event) : Py unit := λ w, (Normal (), record ev w).

Definition raise {A} (e : exception) : Py A := λ w, (Raised e, w).

(** [sys.exit(code)] *)
Definition sys_exit {A} (code : Z) : Py A := λ w, (SystemExit code, w).

(** [try: body / except Exception as e: handler e] *)
Definition try_except {A} (body : Py A) (handler : exception → Py A) : Py A :=
  λ w, match body w with
       | (Raised e, w') => handler e w'
       | r => r
       end.

(** [os.environ.get(name)] *)
Definition environ_get (name : string) : Py (option str) := λ w,
  (Normal (environ w !! name), record (EnvironGet name) w).

(** [sys.stdin.read()]: everything up to end-of-stream. *)
Definition stdin_read : Py str := λ w,
  (Normal (stdin w),
   World (environ w) [] (remote w) (unencodable w) (trace w ++ [StdinRead])).

(** [f.write(data)]: the text is encoded as a whole before any of it
    reaches the stream; [sys.stdout] raises for a text its codec
    rejects, [sys.stderr] takes everything. *)
Definition write (f : file) (data : str) : Py unit := λ w,
  match f with
  | stdout =>
      match unencodable w data with
      | Some e => (Raised e, w)
      | None => (Normal (), record (Write stdout data) w)
      end
  | stderr => (Normal (), record (Write stderr data) w)
  end.

(** [print(text, end=end_, file=f, flush=flush)].  The script prints
    either a text with [end=""] or nothing but the line end, so that
    [text] and [end_] always reach the stream as one piece. *)
Definition print (text end_ : str) (f : file) (flush : bool) : Py unit :=
  write f (text ++ end_);;
  if flush then log (Flush f) else mret ().

(** [l[i]] *)
Definition getitem {A} (l : list A) (i : nat) : Py A :=
  match l !! i with
  | Some x => mret x
  | None => raise (IndexError "list index out of range")
  end.

(** [client.chat.completions.create], called with the keywords of [req] *)
Definition create (c : client) (req : request) : Py response := λ w,
  match remote w c req with
  | CreateRaises e => (Raised e, record (Create c req) w)
  | CreateReturns r => (Normal r, record (Create c req) w)
  end.

(** ** The script *)

(** ["\n"] *)
Definition NL : str := [0x0A].

(** Lines 35-39: the loop over the response, with [full_response] as its
    state. *)
Fixpoint relay (resp : response) (full_response : str) : Py str :=
  match resp with
  | StopIteration => log Next;; mret full_response
  | NextRaises e => log Next;; raise e
  | NextChunk chunk rest =>
      log Next;;
      choice ← getitem (choices chunk) 0;
      full_response ←
        match content (delta choice) with
        | Some ((_ :: _) as text) =>
            print text [] stdout true;;
            mret (full_response ++ text)
        | _ => mret full_response
        end;
      relay rest full_response
  end.

(** Lines 7-14: the module-level statements. *)
Definition module_level : Py client :=
  api_key ← environ_get "ZHIPUAI_API_KEY";
  (if negb (truthy api_key) then
     print (lit "BŁĄD: Brak zmiennej środowiskowej ZHIPUAI_API_KEY") NL stderr false;;
     sys_exit 1
   else mret ());;
  mret (ZhipuAI api_key).

(** Lines 16-45: [main()], with the value line 34 gives [full_response]
    left open. *)
Definition main_from (full_response : str) (client : client) : Py unit :=
  prompt ← stdin_read;
  (if negb (str_truthy (strip prompt)) then
     print (lit "BŁĄD: Pusty prompt") NL stderr false;;
     sys_exit 1
   else mret ());;
  try_except
    (response ← create client
       (Request (lit "glm-4-plus") [Message (lit "user") prompt] true);
     full_response ← relay response full_response;
     print [] NL stdout false)
    (λ e,
     print (lit "BŁĄD API GLM: " ++ exc_str e) NL stderr false;;
     sys_exit 1).

(** [main()] as it stands: [full_response = ""]. *)
Definition main (client : client) : Py unit := main_from [] client.

(** The whole file, run as a program. *)
Definition script : Py unit :=
  client ← module_level;
  main client.

(** ** A process *)

(** What a run of the script is given: the environment, the text on
    standard input and the behaviour of the service. *)
Record process : Type := Process {
  p_environ : gmap string str;
  p_stdin : str;
  p_remote : client → request → create_result
}.

(** The exit status the interpreter reports. *)
Definition status {A} (o : outcome A) : Z :=
  match o with
  | Normal _ => 0
  | SystemExit c => c
  | Raised _ => 1
  end%Z.

(** ** Traces *)

Definition file_eqb (f g : file) : bool :=
  match f, g with stdout, stdout | stderr, stderr => true | _, _ => false end.

(** The pieces of text handed to stream [f], in order, and the content
    of the stream they add up to. *)
Definition writes_to (f : file) (t : list event) : list str :=
  omap (λ ev, match ev with
              | Write g d => if file_eqb f g then Some d else None
              | _ => None
              end) t.

Definition written (f : file) (t : list event) : str := concat (writes_to f t).

Definition is_network (ev : event) : bool :=
  match ev with Create _ _ | Next => true | _ => false end.

(** The world after further interactions [evs]. *)
Definition extend (evs : list event) (w : world) : world :=
  World (environ w) (stdin w) (remote w) (unencodable w) (trace w ++ evs).

(** The number of line ends in a text. *)
Definition newlines (s : str) : nat := length (filter (λ c, c = 0x0A) s).

(** ** Vocabulary of the properties *)

(** The credential the environment holds, if any. *)
Definition credential (p : process) : option str :=
  p_environ p !! "ZHIPUAI_API_KEY".

(** The credential variable holds the non-empty text [key]. *)
Definition valid_credential (p : process) (key : str) : Prop :=
  credential p = Some key ∧ key ≠ [].

(** Text made of whitespace only (the empty text included). *)
Definition blank (s : str) : Prop := Forall (λ c, isspace c = true) s.

#[global] Instance blank_dec (s : str) : Decision (blank s) :=
  Forall_dec (λ c, isspace c = true) s.

(** The request the script sends for the prompt on standard input. *)
Definition the_request (p : process) : request :=
  Request (lit "glm-4-plus") [Message (lit "user") (p_stdin p)] true.

(** What the service answers to the script's request. *)
Definition answer (p : process) (key : str) : create_result :=
  p_remote p (ZhipuAI (Some key)) (the_request p).

(** A response that hands out the chunks [cs] and then goes on as [fin]. *)
Definition stream_of (cs : list chunk) (fin : response) : response :=
  foldr NextChunk fin cs.

(** A chunk the loop body can index: [choices] is not empty. *)
Definition has_choice (c : chunk) : Prop := choices c ≠ [].

(** The textual delta of a chunk; a chunk without one contributes the
    empty text. *)
Definition delta_text (c : chunk) : str :=
  match choices c with
  | ch :: _ => default [] (content (delta ch))
  | [] => []
  end.

(** The deltas that are present and not empty, in arrival order. *)
Definition deltas (cs : list chunk) : list str :=
  filter (λ t, t ≠ []) (map delta_text cs).

(** Standard output, whose codec raises what [u] says, can encode the
    text [d]. *)
Definition printable (u : str → option exception) (d : str) : Prop :=
  u d = None.

(** The loop body gets through the chunk [c]: it carries a choice, and
    its delta is empty or can be encoded. *)
Definition relayed (u : str → option exception) (c : chunk) : Prop :=
  has_choice c ∧ (delta_text c ≠ [] → printable u (delta_text c)).

(** The three diagnostics. *)
Definition credential_missing_line : str :=
  lit "BŁĄD: Brak zmiennej środowiskowej ZHIPUAI_API_KEY" ++ NL.
Definition empty_prompt_line : str := lit "BŁĄD: Pusty prompt" ++ NL.
Definition api_error_marker : str := lit "BŁĄD API GLM: ".
Definition api_error_line (e : exception) : str :=
  api_error_marker ++ exc_str e ++ NL.

(** The interactions of the loop body over chunks it gets through: for
    each, the step of the iterator and, for a delta that is present and
    not empty, its text written and flushed. *)
Definition relay_events (cs : list chunk) : list event :=
  flat_map (λ c, Next :: match delta_text c with
                         | [] => []
                         | t => [Write stdout t; Flush stdout]
                         end) cs.

Definition prologue : list event := [EnvironGet "ZHIPUAI_API_KEY"; StdinRead].

Definition dispatch (p : process) (key : str) : list event :=
  prologue ++ [Create (ZhipuAI (Some key)) (the_request p)].

(** The guarded block, given the response [r], stops with exception [e]
    after the chunks [cs] went through: the iterator raises [e]; or the
    next chunk has no choice to index and [e] is the [IndexError] this
    raises; or the delta of the next chunk cannot be encoded and [e] is
    what [print] raises; or the stream ends and [e] is what the final
    [print()] raises. *)
Inductive relay_fails (u : str → option exception)
          (r : response) (cs : list chunk) (e : exception) : Prop :=
| fails_raise :
    Forall (relayed u) cs → r = stream_of cs (NextRaises e) →
    relay_fails u r cs e
| fails_index c rest :
    Forall (relayed u) cs → choices c = [] →
    r = stream_of cs (NextChunk c rest) →
    e = IndexError "list index out of range" →
    relay_fails u r cs e
| fails_print c rest :
    Forall (relayed u) cs → has_choice c → delta_text c ≠ [] →
    u (delta_text c) = Some e →
    r = stream_of cs (NextChunk c rest) →
    relay_fails u r cs e
| fails_newline :
    Forall (relayed u) cs → u NL = Some e →
    r = stream_of cs StopIteration →
    relay_fails u r cs e.

(** ** Outcomes *)

(** The four outcomes of a run, read off the process alone: the
    configuration, the prompt, and what the service does. *)
Inductive ExitOutcome : Type :=
| success | configuration_error | empty_input_error | api_error.

Definition accepts (u : str → option exception) (d : str) : bool :=
  match u d with None => true | Some _ => false end.

(** The guarded block gets through the response: the stream stops after
    chunks that each carry a choice and a delta standard output can
    encode, and the final newline can be encoded. *)
Fixpoint completes (u : str → option exception) (r : response) : bool :=
  match r with
  | StopIteration => accepts u NL
  | NextRaises _ => false
  | NextChunk c rest =>
      match choices c with
      | [] => false
      | ch :: _ =>
          match content (delta ch) with
          | Some ((_ :: _) as text) => accepts u text && completes u rest
          | _ => completes u rest
          end
      end
  end.

(** Reading the outcome back from standard error: nothing written,
    or a diagnostic told apart by the code point after ["BŁĄD"] (a space
    for the API error, a colon otherwise) and the first letter of the
    message (["B"]rak or ["P"]usty). *)
Definition outcome_of_stderr (err : str) : ExitOutcome :=
  match err with
  | [] => success
  | _ :: _ =>
      if bool_decide (err !! 4%nat = Some 0x20) then api_error
      else if bool_decide (err !! 6%nat = Some 0x42) then configuration_error
      else empty_input_error
  end.

(** ** Life cycle *)

(** The life cycle of a run:
    [Start → ConfigLoaded → PromptRead → Streaming → {Success | Failed}].
    [ConfigLoaded]: the environment has been consulted; [PromptRead]:
    standard input has been read; [Streaming]: the request has been
    sent. *)
Inductive phase : Type :=
| Start | ConfigLoaded | PromptRead | Streaming | Success | Failed.

(** The transition an interaction causes.  A diagnostic on standard
    error is the failure transition; [Success] and [Failed] have no way
    out, and nothing leads back to an earlier phase. *)
Definition step (s : phase) (ev : event) : option phase :=
  match s, ev with
  | Start, EnvironGet _ => Some ConfigLoaded
  | ConfigLoaded, StdinRead => Some PromptRead
  | PromptRead, Create _ _ => Some Streaming
  | Streaming, (Next | Write stdout _ | Flush stdout) => Some Streaming
  | (ConfigLoaded | PromptRead | Streaming), Write stderr _ => Some Failed
  | _, _ => None
  end.

Fixpoint advance (s : phase) (t : list event) : option phase :=
  match t with
  | [] => Some s
  | ev :: t' =>
      match step s ev with
      | Some s' => advance s' t'
      | None => None
      end
  end.

(** The process ends: with status 0 out of [Streaming], which is
    [Success]; with status 1 once [Failed]. *)
Definition finish (s : phase) (code : Z) : option phase :=
  match s with
  | Streaming => if bool_decide (code = 0%Z) then Some Success else None
  | Failed => if bool_decide (code = 1%Z) then Some Failed else None
  | _ => None
  end.

Definition lifecycle (t : list event) (code : Z) : option phase :=
  match advance Start t with
  | Some s => finish s code
  | None => None
  end.


(** ** Flushing *)

(** Every text handed to standard output is not empty and is flushed
    at once; only a ["\n"] that ends the trace may stay unflushed. *)
Fixpoint flushed (t : list event) : bool :=
  match t with
  | [] => true
  | Write stdout d :: t' =>
      match d, t' with
      | _ :: _, Flush stdout :: _ => flushed t'
      | _, [] => bool_decide (d = NL)
      | _, _ => false
      end
  | _ :: t' => flushed t'
  end.

(** ** Sample processes *)

(** A chunk with one choice, whose delta has the content [o]. *)
Definition text_chunk (o : option str) : chunk := Chunk [MkChoice (Delta o)].

(** A service that answers every request with the response [r]. *)
Definition answering (r : response) : client → request → create_result :=
  λ _ _, CreateReturns r.

Definition sample_environ : gmap string str :=
  {[ "ZHIPUAI_API_KEY" := lit "secret"; "HOME" := lit "/root" ]}.

Definition hello_chunks : list chunk :=
  [text_chunk (Some (lit "Hel")); text_chunk (Some (lit "lo"));
   text_chunk (Some (lit "")); text_chunk (Some (lit " world"))].

(** The streamed answer ["Hel", "lo", "", " world"]. *)
Definition hello_process : process :=
  Process sample_environ (lit "Say hello")
          (answering (stream_of hello_chunks StopIteration)).

Definition boom : exception := Exception "APIError" (lit "connection reset").

(** The stream raises after the chunk ["Hel"]. *)
Definition broken_process : process :=
  Process sample_environ (lit "Say hello")
          (answering (stream_of [text_chunk (Some (lit "Hel"))] (NextRaises boom))).

(** The variable is not set; the variable is set to the empty text. *)
Definition unset_process : process :=
  Process {[ "HOME" := lit "/root" ]} (lit "Say hello")
          (answering StopIteration).
Definition empty_key_process : process :=
  Process {[ "ZHIPUAI_API_KEY" := lit "" ]} (lit "Say hello")
          (answering StopIteration).

(** Standard input holds a space, a no-break space, an ideographic space
    and a line feed. *)
Definition blank_process : process :=
  Process sample_environ [0x20; 0xA0; 0x3000; 0x0A] (answering StopIteration).

(** The service streams one chunk whose [choices] is empty. *)
Definition no_choice_process : process :=
  Process sample_environ (lit "Say hello")
          (answering (stream_of [Chunk []] StopIteration)).

(** [create] itself raises. *)
Definition refused_process : process :=
  Process sample_environ (lit "Say hello") (λ _ _, CreateRaises boom).

(** After ["Hel"] comes a chunk without choices; ["lo"] would follow. *)
Definition truncated_process : process :=
  Process sample_environ (lit "Say hello")
          (answering
             (stream_of [text_chunk (Some (lit "Hel"))]
                (NextChunk (Chunk [])
                   (stream_of [text_chunk (Some (lit "lo"))] StopIteration)))).

(** The same text as [hello_chunks], cut differently. *)
Definition rechunked : list chunk :=
  [text_chunk (Some (lit "Hello")); text_chunk None;
   text_chunk (Some (lit " ")); text_chunk (Some (lit "world"))].

(** The sample answer, asked for with another credential. *)
Definition other_key_process : process :=
  Process (<[ "ZHIPUAI_API_KEY" := lit "another" ]> sample_environ)
          (lit "Say hello")
          (answering (stream_of hello_chunks StopIteration)).

(** Another credential, other variables and another chunking. *)
Definition other_process : process :=
  Process {[ "ZHIPUAI_API_KEY" := lit "another"; "LANG" := lit "pl_PL.UTF-8" ]}
          (lit "Say hello")
          (answering (stream_of rechunked StopIteration)).

(** The deltas ["A"], a lone surrogate (U+D83D) and ["B"]. *)
Definition surrogate_chunks : list chunk :=
  [text_chunk (Some (lit "A")); text_chunk (Some [0xD83D]);
   text_chunk (Some (lit "B"))].

Definition surrogate_process : process :=
  Process sample_environ (lit "Say hello")
          (answering (stream_of surrogate_chunks StopIteration)).

(** An exception whose text has two lines. *)
Definition two_lines : exception :=
  Exception "HTTPStatusError"
            (lit "Server error '500'" ++ NL ++ lit "For more information check the status page").

(** The stream raises it after the chunk ["Hel"]. *)
Definition two_lines_process : process :=
  Process sample_environ (lit "Say hello")
          (answering (stream_of [text_chunk (Some (lit "Hel"))]
                                (NextRaises two_lines))).

(** ** A sample platform *)

Definition is_surrogate (c : codepoint) : bool :=
  (0xD800 <=? c) && (c <=? 0xDFFF).

Definition UnicodeEncodeError (reason : string) : exception :=
  Exception "UnicodeEncodeError" (lit reason).

(** Standard output encodes to UTF-8, which rejects surrogates, unless
    [PYTHONIOENCODING=ascii] asks for ASCII, which rejects what is not
    below 128.  The texts of the errors are shortened to their reason. *)
Definition sample_platform (env : gmap string str) (d : str) : option exception :=
  if bool_decide (env !! "PYTHONIOENCODING" = Some (lit "ascii")) then
    if forallb (λ c, c <? 128) d then None
    else Some (UnicodeEncodeError "ordinal not in range(128)")
  else
    if existsb is_surrogate d
    then Some (UnicodeEncodeError "surrogates not allowed")
    else None.

(** ** Running the script as a process *)

Section Platform.

(** The platform: for an environment, what encoding a text for
    [sys.stdout] raises, if anything. *)
Variable encode_error : gmap string str → str → option exception.

Definition stdout_codec (p : process) : str → option exception :=
  encode_error (p_environ p).

Definition start (p : process) : world :=
  World (p_environ p) (p_stdin p) (p_remote p) (stdout_codec p) [].

Definition run (p : process) : outcome unit * world := script (start p).

Definition exit_code (p : process) : Z := status (run p).1.

Definition run_trace (p : process) : list event := trace (run p).2.
Definition stdout_of (p : process) : str := written stdout (run_trace p).
Definition stderr_of (p : process) : str := written stderr (run_trace p).

(** The interactions with the remote service a run performed. *)
Definition network_calls (p : process) : list event :=
  filter (λ ev, is_network ev = true) (run_trace p).

(** The chat-completion requests a run issued. *)
Definition requests (p : process) : list (client * request) :=
  omap (λ ev, match ev with Create c r => Some (c, r) | _ => None end)
       (run_trace p).

(** The world of process [p] once standard input has been read and the
    interactions [evs] have taken place. *)
Definition after_read (p : process) (evs : list event) : world :=
  World (p_environ p) [] (p_remote p) (stdout_codec p) evs.

Definition category (p : process) : ExitOutcome :=
  match credential p with
  | Some ((_ :: _) as key) =>
      if decide (blank (p_stdin p)) then empty_input_error
      else match answer p key with
           | CreateRaises _ => api_error
           | CreateReturns r =>
               if completes (stdout_codec p) r then success else api_error
           end
  | _ => configuration_error
  end.

(** The five ways a run can go, each with the outcome and the final
    world it leads to. *)
Inductive run_case (p : process) : Prop :=
| case_no_credential :
    truthy (credential p) = false →
    run p =
    (SystemExit 1,
     World (p_environ p) (p_stdin p) (p_remote p) (stdout_codec p)
           [EnvironGet "ZHIPUAI_API_KEY"; Write stderr credential_missing_line]) →
    run_case p
| case_blank key :
    valid_credential p key → blank (p_stdin p) →
    run p =
    (SystemExit 1, after_read p (prologue ++ [Write stderr empty_prompt_line])) →
    run_case p
| case_create_raises key e :
    valid_credential p key → ¬ blank (p_stdin p) →
    answer p key = CreateRaises e →
    run p =
    (SystemExit 1,
     after_read p (dispatch p key ++ [Write stderr (api_error_line e)])) →
    run_case p
| case_completes key cs :
    valid_credential p key → ¬ blank (p_stdin p) →
    answer p key = CreateReturns (stream_of cs StopIteration) →
    Forall (relayed (stdout_codec p)) cs →
    printable (stdout_codec p) NL →
    run p =
    (Normal (),
     after_read p (dispatch p key ++ relay_events cs ++ [Next; Write stdout NL])) →
    run_case p
| case_relay_fails key r cs e :
    valid_credential p key → ¬ blank (p_stdin p) →
    answer p key = CreateReturns r → relay_fails (stdout_codec p) r cs e →
    run p =
    (SystemExit 1,
     after_read p (dispatch p key ++ relay_events cs ++
                   [Next; Write stderr (api_error_line e)])) →
    run_case p.

(** * Properties *)

(** ** Literals and whitespace *)

Example lit_BLAD : lit "BŁĄD" = [66; 321; 260; 68].
Proof. reflexivity. Qed.

Example isspace_examples :
  map isspace [9; 10; 13; 32; 0xA0; 0x3000; 65; 0x200B] =
  [true; true; true; true; true; true; false; false].
Proof. reflexivity. Qed.

Example strip_example : strip (lit "  hi there
") = lit "hi there".
Proof. reflexivity. Qed.

Section Dropwhile.
Context {A : Type} (p : A → bool).

Lemma dropwhile_nil_iff (l : list A) :
  dropwhile p l = [] ↔ Forall (λ x, p x = true) l.
Proof.
  induction l as [|x l IH]; simpl.
  - split; [constructor | reflexivity].
  - destruct (p x) eqn:Hx.
    + rewrite IH. split.
      * intros H. by constructor.
      * by inversion 1.
    + split; [discriminate |].
      inversion 1; congruence.
Qed.

Lemma dropwhile_suffix (l : list A) : dropwhile p l `suffix_of` l.
Proof.
  induction l as [|x l IH]; simpl; [done |].
  destruct (p x); [by apply suffix_cons_r | done].
Qed.
End Dropwhile.

Lemma blank_suffix (s t : str) : s `suffix_of` t → blank t → blank s.
Proof.
  intros [k ->] H. unfold blank in *.
  by apply Forall_app in H as [_ H].
Qed.

Lemma rstrip_nil_iff (s : str) : rstrip s = [] ↔ blank s.
Proof.
  unfold rstrip, blank.
  rewrite <- (Forall_reverse _ s), <- dropwhile_nil_iff.
  split; intros H.
  - apply (f_equal reverse) in H. by rewrite reverse_involutive in H.
  - by rewrite H.
Qed.

(** [prompt.strip()] is empty exactly for whitespace-only text. *)
Lemma strip_nil_iff (s : str) : strip s = [] ↔ blank s.
Proof.
  unfold strip. rewrite rstrip_nil_iff. split; intros H.
  - apply dropwhile_nil_iff.
    destruct (lstrip s) as [|c r] eqn:E; [done |].
    exfalso. unfold lstrip in E.
    assert (Hc : isspace c = true) by (by inversion H).
    clear H. induction s as [|x s IH]; simpl in E; [done |].
    destruct (isspace x) eqn:Hx; [auto | congruence].
  - eapply blank_suffix; [apply dropwhile_suffix | done].
Qed.

Lemma strip_blank (s : str) : blank s → str_truthy (strip s) = false.
Proof. intros H. apply strip_nil_iff in H. by rewrite H. Qed.

Lemma strip_not_blank (s : str) : ¬ blank s → str_truthy (strip s) = true.
Proof.
  intros H. destruct (strip s) eqn:E; [| done].
  by apply strip_nil_iff in E.
Qed.

(** ** Traces *)

Lemma record_extend ev w : record ev w = extend [ev] w.
Proof. reflexivity. Qed.

Lemma extend_extend a b w : extend b (extend a w) = extend (a ++ b) w.
Proof. unfold extend; simpl. by rewrite app_assoc. Qed.

Lemma writes_to_app f (a b : list event) :
  writes_to f (a ++ b) = writes_to f a ++ writes_to f b.
Proof. apply omap_app. Qed.


Lemma concat_deltas (cs : list chunk) :
  concat (deltas cs) = concat (map delta_text cs).
Proof.
  unfold deltas. induction cs as [|c cs IH]; [done |].
  cbn [map]. rewrite filter_cons.
  destruct (decide (delta_text c ≠ [])) as [|E]; cbn [concat].
  - by rewrite IH.
  - apply dec_stable in E. by rewrite E, IH.
Qed.

Lemma writes_relay_events (cs : list chunk) :
  writes_to stdout (relay_events cs) = deltas cs ∧
  writes_to stderr (relay_events cs) = [].
Proof.
  unfold relay_events, deltas. induction cs as [|c cs [IH1 IH2]]; [done |].
  simpl. rewrite filter_cons.
  destruct (delta_text c) eqn:E; simpl; [done |].
  by rewrite IH1.
Qed.

Lemma requests_relay_events (cs : list chunk) :
  omap (λ ev, match ev with Create c r => Some (c, r) | _ => None end)
       (relay_events cs) = [].
Proof.
  unfold relay_events. induction cs as [|c cs IH]; [done |].
  simpl. rewrite omap_app, IH. by destruct (delta_text c).
Qed.

Lemma network_relay_events (cs : list chunk) (tail : list event) :
  length (filter (λ ev, is_network ev = true) (relay_events cs ++ tail)) =
  (length cs + length (filter (λ ev, is_network ev = true) tail))%nat.
Proof.
  unfold relay_events. induction cs as [|c cs IH]; [done |].
  cbn [flat_map length]. rewrite <- app_assoc.
  cbn [app]. rewrite filter_cons_True by done. cbn [length].
  destruct (delta_text c) as [|x t]; cbn [app].
  - by rewrite IH.
  - rewrite filter_cons_False by done. rewrite filter_cons_False by done.
    by rewrite IH.
Qed.

(** ** Chunks that go through *)

(** Chunks that carry a choice and whose non-empty deltas can be
    encoded all go through the loop body. *)
Lemma relayed_intro (u : str → option exception) (cs : list chunk) :
  Forall has_choice cs → Forall (printable u) (deltas cs) →
  Forall (relayed u) cs.
Proof.
  unfold deltas. induction 1 as [|c cs Hc _ IH]; [constructor |].
  cbn [map]. rewrite filter_cons.
  destruct (decide (delta_text c ≠ [])) as [Hne|He]; intros Hp.
  - apply Forall_cons in Hp as [Hp Hps]. constructor; [by split | auto].
  - constructor; [by split | auto].
Qed.

Lemma relayed_deltas (u : str → option exception) (cs : list chunk) :
  Forall (relayed u) cs →
  Forall has_choice cs ∧ Forall (printable u) (deltas cs).
Proof.
  unfold deltas. induction 1 as [|c cs [Hc Hp] _ [IH1 IH2]]; [done |].
  split; [by constructor |].
  cbn [map]. rewrite filter_cons.
  destruct (decide (delta_text c ≠ [])); [constructor; auto | done].
Qed.

(** ** The relay loop *)

Lemma relay_chunk (c : chunk) (rest : response) (acc : str) (w : world) :
  relayed (unencodable w) c →
  relay (NextChunk c rest) acc w =
  relay rest (acc ++ delta_text c) (extend (relay_events [c]) w).
Proof.
  intros [Hc Hp]. unfold has_choice in Hc.
  unfold relay_events, delta_text, printable in *.
  destruct c as [[|[[o]] chs]]; [done |]. simpl in *.
  unfold mbind, Py_bind, log, getitem. simpl.
  destruct o as [[|x t]|]; simpl in *.
  - by rewrite ?app_nil_r, ?record_extend.
  - unfold print, write, mbind, Py_bind, log. cbn.
    rewrite app_nil_r, Hp by done.
    by rewrite ?record_extend, ?extend_extend.
  - by rewrite ?app_nil_r, ?record_extend.
Qed.

(** Chunks that go through are relayed one after the other; the loop
    then goes on with what follows them. *)
Lemma relay_stream_of (cs : list chunk) (fin : response) (acc : str) (w : world) :
  Forall (relayed (unencodable w)) cs →
  relay (stream_of cs fin) acc w =
  relay fin (acc ++ concat (map delta_text cs)) (extend (relay_events cs) w).
Proof.
  revert acc w. induction cs as [|c cs IH]; intros acc w H.
  - simpl. rewrite app_nil_r. f_equal. unfold extend. destruct w; simpl.
    by rewrite app_nil_r.
  - apply Forall_cons in H as [Hc H].
    change (stream_of (c :: cs) fin) with (NextChunk c (stream_of cs fin)).
    rewrite relay_chunk by done. rewrite IH by done. rewrite extend_extend.
    simpl. by rewrite !app_assoc, !app_nil_r.
Qed.

Lemma relay_stop (acc : str) (w : world) :
  relay StopIteration acc w = (Normal acc, extend [Next] w).
Proof. reflexivity. Qed.

Lemma relay_raises (e : exception) (acc : str) (w : world) :
  relay (NextRaises e) acc w = (Raised e, extend [Next] w).
Proof. reflexivity. Qed.

Lemma relay_no_choice (c : chunk) (rest : response) (acc : str) (w : world) :
  choices c = [] →
  relay (NextChunk c rest) acc w =
  (Raised (IndexError "list index out of range"), extend [Next] w).
Proof. intros H. simpl. unfold mbind, Py_bind, getitem. by rewrite H. Qed.

(** A delta standard output cannot encode: [print] raises, nothing of
    the delta is written, and the loop is left. *)
Lemma relay_unprintable (c : chunk) (rest : response) (acc : str) (w : world)
      (e : exception) :
  has_choice c → delta_text c ≠ [] → unencodable w (delta_text c) = Some e →
  relay (NextChunk c rest) acc w = (Raised e, extend [Next] w).
Proof.
  unfold has_choice, delta_text. intros Hc Hne Hu.
  destruct c as [[|[[o]] chs]]; [done |]. simpl in *.
  destruct o as [[|x t]|]; simpl in *; try done.
  unfold mbind, Py_bind, log, getitem. simpl.
  unfold print, write, mbind, Py_bind, log. cbn.
  by rewrite app_nil_r, Hu.
Qed.

Lemma relay_fails_cons (u : str → option exception) (c : chunk)
      (r : response) (cs : list chunk) (e : exception) :
  relayed u c → relay_fails u r cs e →
  relay_fails u (NextChunk c r) (c :: cs) e.
Proof.
  intros Hc [H ->|c' rest H Hc' -> ->|c' rest H Hc' Hne Hu ->|H Hu ->].
  - apply fails_raise; [by constructor | done].
  - apply (fails_index _ _ _ _ c' rest); [by constructor | done..].
  - apply (fails_print _ _ _ _ c' rest); [by constructor | done..].
  - apply fails_newline; [by constructor | done..].
Qed.

(** Every response either lets the guarded block through or makes it
    fail after some chunks. *)
Lemma relay_fails_or_completes (u : str → option exception) (r : response) :
  (∃ cs, Forall (relayed u) cs ∧ printable u NL ∧ r = stream_of cs StopIteration) ∨
  (∃ cs e, relay_fails u r cs e).
Proof.
  induction r as [|e|c rest IH].
  - destruct (u NL) as [e|] eqn:Hu.
    + right. exists [], e. by apply fails_newline.
    + left. by exists [].
  - right. exists [], e. by apply fails_raise.
  - assert (Hgo : relayed u c →
      (∃ cs, Forall (relayed u) cs ∧ printable u NL ∧
             NextChunk c rest = stream_of cs StopIteration) ∨
      (∃ cs e, relay_fails u (NextChunk c rest) cs e)).
    { intros Hc. destruct IH as [(cs & H & Hn & ->)|(cs & e & Hf)].
      - left. exists (c :: cs). split_and!; [by constructor | done | done].
      - right. exists (c :: cs), e. by apply relay_fails_cons. }
    destruct (decide (choices c = [])) as [E|E].
    { right. exists [], (IndexError "list index out of range").
      by apply (fails_index _ _ _ _ c rest). }
    destruct (decide (delta_text c = [])) as [D|D].
    { apply Hgo. by split. }
    destruct (u (delta_text c)) as [e|] eqn:Hu.
    + right. exists [], e. by apply (fails_print _ _ _ _ c rest).
    + apply Hgo. by split.
Qed.

Lemma completes_stream_of (u : str → option exception)
      (cs : list chunk) (fin : response) :
  Forall (relayed u) cs → completes u (stream_of cs fin) = completes u fin.
Proof.
  induction 1 as [|c cs [Hc Hp] _ IH]; [done |].
  simpl. unfold has_choice, delta_text, printable, accepts in *.
  destruct c as [[|[[o]] chs]]; [done |]. simpl in *.
  destruct o as [[|x t]|]; simpl in *; try done.
  by rewrite Hp.
Qed.

Lemma completes_relay_fails (u : str → option exception)
      (r : response) (cs : list chunk) (e : exception) :
  relay_fails u r cs e → completes u r = false.
Proof.
  intros [H ->|c rest H Hc -> _|c rest H Hc Hne Hu ->|H Hu ->];
    rewrite completes_stream_of by done; simpl.
  - done.
  - by rewrite Hc.
  - unfold has_choice, delta_text, accepts in *.
    destruct c as [[|[[o]] chs]]; [done |]. simpl in *.
    destruct o as [[|x t]|]; simpl in *; try done.
    by rewrite Hu.
  - unfold accepts. by rewrite Hu.
Qed.

Lemma completes_ends (u : str → option exception) (cs : list chunk) :
  Forall (relayed u) cs → printable u NL →
  completes u (stream_of cs StopIteration) = true.
Proof.
  intros H Hn. rewrite completes_stream_of by done.
  simpl. unfold accepts. by rewrite Hn.
Qed.

(** ** The life cycle and the flushing of traces *)

Lemma advance_app (s : phase) (a b : list event) :
  advance s (a ++ b) =
  match advance s a with Some s' => advance s' b | None => None end.
Proof.
  revert s. induction a as [|ev a IH]; intros s; simpl; [done |].
  destruct (step s ev); [apply IH | done].
Qed.

Lemma advance_relay_events (cs : list chunk) :
  advance Streaming (relay_events cs) = Some Streaming.
Proof.
  unfold relay_events. induction cs as [|c cs IH]; [done |].
  simpl. rewrite advance_app.
  by destruct (delta_text c).
Qed.

Lemma advance_streaming (p : process) (key : str) (cs : list chunk)
      (tail : list event) :
  advance Start (dispatch p key ++ relay_events cs ++ tail) =
  advance Streaming tail.
Proof.
  rewrite advance_app.
  change (advance Start (dispatch p key)) with (Some Streaming).
  cbv iota beta. by rewrite advance_app, advance_relay_events.
Qed.

(** Once failed, a run that follows the life cycle does nothing more. *)
Lemma advance_failed (t : list event) (s : phase) :
  advance Failed t = Some s → t = [].
Proof. by destruct t. Qed.

Lemma advance_failure_last (t : list event) (s s' : phase) (d : str) :
  advance s t = Some s' → Write stderr d ∈ t →
  last t = Some (Write stderr d) ∧ s' = Failed.
Proof.
  revert s. induction t as [|ev t IH]; intros s Ha Hin.
  - by apply elem_of_nil in Hin.
  - simpl in Ha. destruct (step s ev) as [s1|] eqn:Hs; [| done].
    apply elem_of_cons in Hin as [<-|Hin].
    + assert (s1 = Failed) as ->
        by (destruct s; simpl in Hs; congruence).
      pose proof (advance_failed _ _ Ha) as Ht. subst t.
      simpl in Ha. split; [done | congruence].
    + destruct (IH _ Ha Hin) as [Hl ->]. split; [| done].
      destruct t; [by apply elem_of_nil in Hin | done].
Qed.

Lemma flushed_tail (ev : event) (t : list event) :
  t ≠ [] → flushed (ev :: t) = true → flushed t = true.
Proof.
  intros Hne H. destruct ev as [| | | |[] d|]; try done.
  simpl in H. destruct d, t as [|[| | | |[]|[]] t]; done.
Qed.

Lemma flushed_split (t t1 t2 : list event) (d : str) :
  flushed t = true → t = t1 ++ Write stdout d :: t2 →
  d ≠ [] ∧ ((∃ t3, t2 = Flush stdout :: t3) ∨ (t2 = [] ∧ d = NL)).
Proof.
  revert t. induction t1 as [|ev t1 IH]; intros t Hf ->.
  - simpl in Hf. destruct d as [|x d], t2 as [|[| | | |[]|[]] t2]; try done.
    + apply bool_decide_eq_true in Hf. split; [done | by right].
    + split; [done |]. left. by eexists.
  - apply (IH (t1 ++ Write stdout d :: t2)); [| done].
    apply (flushed_tail ev); [by destruct t1 | done].
Qed.

Lemma flushed_relay_events (cs : list chunk) (tail : list event) :
  tail ≠ [] → flushed (relay_events cs ++ tail) = flushed tail.
Proof.
  intros Hne. unfold relay_events. induction cs as [|c cs IH]; [done |].
  cbn [flat_map]. rewrite <- app_assoc. cbn [app flushed].
  destruct (delta_text c) as [|x t]; cbn [app flushed]; by rewrite IH.
Qed.

Lemma writes_dispatch (f : file) (p : process) (key : str) :
  writes_to f (dispatch p key) = [].
Proof. reflexivity. Qed.

Lemma writes_streaming (p : process) (key : str) (cs : list chunk)
      (tail : list event) :
  writes_to stdout (dispatch p key ++ relay_events cs ++ tail) =
    deltas cs ++ writes_to stdout tail ∧
  writes_to stderr (dispatch p key ++ relay_events cs ++ tail) =
    writes_to stderr tail.
Proof.
  rewrite !writes_to_app, !writes_dispatch.
  destruct (writes_relay_events cs) as [-> ->]. done.
Qed.

Lemma requests_streaming (p : process) (key : str) (cs : list chunk)
      (ev : event) :
  omap (λ ev, match ev with Create c r => Some (c, r) | _ => None end)
       (dispatch p key ++ relay_events cs ++ [Next; ev]) =
  (ZhipuAI (Some key), the_request p) ::
  omap (λ ev, match ev with Create c r => Some (c, r) | _ => None end) [ev].
Proof. by rewrite !omap_app, requests_relay_events. Qed.

Lemma not_blank_intro (s : str) : str_truthy (strip s) = true → ¬ blank s.
Proof. intros H Hb. by rewrite strip_blank in H. Qed.

Lemma truthy_false (o : option str) : truthy o = false ↔ o = None ∨ o = Some [].
Proof.
  destruct o as [[|c s]|]; simpl; split; try done; auto; by intros [|].
Qed.

Lemma truthy_valid (p : process) (key : str) :
  valid_credential p key → truthy (credential p) = true.
Proof. intros [-> Hk]. by destruct key. Qed.

Lemma diagnostics_not_empty (e : exception) :
  credential_missing_line ≠ [] ∧ empty_prompt_line ≠ [] ∧ api_error_line e ≠ [].
Proof. split_and!; intros H; vm_compute in H; discriminate H. Qed.

Lemma newlines_app (s t : str) : newlines (s ++ t) = (newlines s + newlines t)%nat.
Proof. unfold newlines. by rewrite filter_app, length_app. Qed.

Lemma newlines_none (s : str) : 0x0A ∉ s → newlines s = 0%nat.
Proof.
  unfold newlines. induction s as [|c s IH]; [done |].
  intros H. apply not_elem_of_cons in H as [Hc Hs].
  rewrite filter_cons_False by done. auto.
Qed.

(** Runs the straight-line part of a computation and compares the
    resulting traces up to the bracketing of [++]. *)
Ltac py_steps :=
  unfold print, write, log, sys_exit, raise, mret, Py_ret, mbind, Py_bind,
         record, extend, dispatch, prologue,
         credential_missing_line, empty_prompt_line, api_error_line,
         api_error_marker;
  cbn [negb environ stdin remote unencodable trace fst snd];
  rewrite <- ?app_assoc; cbn [app]; try reflexivity.

Lemma module_level_exits (w : world) :
  truthy (environ w !! "ZHIPUAI_API_KEY") = false →
  module_level w =
  (SystemExit 1,
   extend [EnvironGet "ZHIPUAI_API_KEY"; Write stderr credential_missing_line] w).
Proof.
  intros H. unfold module_level, environ_get, mbind, Py_bind.
  rewrite H. py_steps.
Qed.

Lemma module_level_client (w : world) (key : str) :
  environ w !! "ZHIPUAI_API_KEY" = Some key → key ≠ [] →
  module_level w =
  (Normal (ZhipuAI (Some key)), extend [EnvironGet "ZHIPUAI_API_KEY"] w).
Proof.
  intros H Hk. unfold module_level, environ_get, mbind, Py_bind.
  rewrite H. destruct key; [done |]. py_steps.
Qed.






(** * Runs *)

(** ** The five ways a run can go *)

Lemma run_no_credential (p : process) :
  truthy (credential p) = false →
  run p =
  (SystemExit 1,
   World (p_environ p) (p_stdin p) (p_remote p) (stdout_codec p)
         [EnvironGet "ZHIPUAI_API_KEY"; Write stderr credential_missing_line]).
Proof.
  intros H. unfold run, script, mbind, Py_bind.
  by rewrite module_level_exits.
Qed.

Lemma run_blank (p : process) (key : str) :
  valid_credential p key → blank (p_stdin p) →
  run p = (SystemExit 1, after_read p (prologue ++ [Write stderr empty_prompt_line])).
Proof.
  intros [Hc Hk] Hb. unfold run, script, mbind at 1, Py_bind at 1.
  rewrite (module_level_client _ key) by done.
  unfold main, main_from, stdin_read, mbind, Py_bind.
  cbn [extend start stdin].
  rewrite (strip_blank _ Hb). unfold after_read. py_steps.
Qed.

(** With a credential and a prompt, the run is the guarded part of
    [main], started after the environment and standard input were read. *)
Lemma run_guarded (p : process) (key : str) :
  valid_credential p key → ¬ blank (p_stdin p) →
  run p =
  try_except
    (response ← create (ZhipuAI (Some key)) (the_request p);
     full_response ← relay response [];
     print [] NL stdout false)
    (λ e, print (api_error_marker ++ exc_str e) NL stderr false;; sys_exit 1)
    (after_read p prologue).
Proof.
  intros [Hc Hk] Hb. unfold run, script, mbind at 1, Py_bind at 1.
  rewrite (module_level_client _ key) by done.
  unfold main, main_from, stdin_read, mbind at 1, Py_bind at 1.
  cbn [extend start stdin].
  rewrite (strip_not_blank _ Hb). reflexivity.
Qed.

Lemma run_create_raises (p : process) (key : str) (e : exception) :
  valid_credential p key → ¬ blank (p_stdin p) →
  answer p key = CreateRaises e →
  run p =
  (SystemExit 1, after_read p (dispatch p key ++ [Write stderr (api_error_line e)])).
Proof.
  intros Hv Hb Ha. rewrite (run_guarded p key) by done.
  unfold try_except, create, mbind, Py_bind, after_read. cbn [remote].
  unfold answer in Ha. rewrite Ha. py_steps.
Qed.

Lemma run_completes (p : process) (key : str) (cs : list chunk) :
  valid_credential p key → ¬ blank (p_stdin p) →
  answer p key = CreateReturns (stream_of cs StopIteration) →
  Forall (relayed (stdout_codec p)) cs →
  printable (stdout_codec p) NL →
  run p =
  (Normal (),
   after_read p (dispatch p key ++ relay_events cs ++ [Next; Write stdout NL])).
Proof.
  intros Hv Hb Ha Hcs Hn. rewrite (run_guarded p key) by done.
  unfold try_except, create, mbind at 1, Py_bind at 1, after_read.
  cbn [remote].
  unfold answer in Ha. rewrite Ha.
  unfold mbind, Py_bind. rewrite relay_stream_of, relay_stop by done.
  unfold print, write, mbind, Py_bind. cbn [extend record unencodable app].
  unfold printable in Hn. rewrite Hn. py_steps.
Qed.

Lemma run_relay_fails (p : process) (key : str) (r : response)
      (cs : list chunk) (e : exception) :
  valid_credential p key → ¬ blank (p_stdin p) →
  answer p key = CreateReturns r → relay_fails (stdout_codec p) r cs e →
  run p =
  (SystemExit 1,
   after_read p (dispatch p key ++ relay_events cs ++
                 [Next; Write stderr (api_error_line e)])).
Proof.
  intros Hv Hb Ha Hf. rewrite (run_guarded p key) by done.
  unfold try_except, create, mbind at 1, Py_bind at 1, after_read.
  cbn [remote].
  unfold answer in Ha. rewrite Ha.
  unfold mbind at 1, Py_bind at 1.
  destruct Hf as [Hcs ->|c rest Hcs Hc -> ->|c rest Hcs Hc Hne Hu ->|Hcs Hu ->].
  - rewrite relay_stream_of, relay_raises by done. py_steps.
  - rewrite relay_stream_of, (relay_no_choice c) by done. py_steps.
  - rewrite relay_stream_of, (relay_unprintable c rest _ _ e) by done. py_steps.
  - rewrite relay_stream_of, relay_stop by done.
    unfold print at 1, write, mbind at 1, Py_bind at 1.
    cbn [extend record unencodable app]. rewrite Hu. py_steps.
Qed.

(** Every run goes one of the five ways. *)
Lemma run_cases (p : process) : run_case p.
Proof.
  destruct (credential p) as [[|k0 key]|] eqn:Hc.
  1,3: apply case_no_credential;
       [by rewrite Hc | apply run_no_credential; by rewrite Hc].
  assert (Hv : valid_credential p (k0 :: key)) by done.
  destruct (decide (blank (p_stdin p))) as [Hb|Hb].
  { apply (case_blank p _ Hv Hb). by apply (run_blank p (k0 :: key)). }
  destruct (answer p (k0 :: key)) as [e|r] eqn:Ha.
  { apply (case_create_raises p _ e Hv Hb Ha).
    by apply (run_create_raises p (k0 :: key)). }
  destruct (relay_fails_or_completes (stdout_codec p) r)
    as [(cs & H & Hn & ->)|(cs & e & Hf)].
  - apply (case_completes p _ cs Hv Hb Ha H Hn).
    by apply (run_completes p (k0 :: key)).
  - apply (case_relay_fails p _ r cs e Hv Hb Ha Hf).
    by apply (run_relay_fails p (k0 :: key) r).
Qed.

Lemma run_observed (p : process) (o : outcome unit) (w : world) :
  run p = (o, w) → exit_code p = status o ∧ run_trace p = trace w.
Proof. unfold exit_code, run_trace. by intros ->. Qed.

(** The script ends normally or through [sys.exit(1)]; no exception
    escapes it. *)
Lemma run_ends (p : process) :
  (run p).1 = Normal () ∨ (run p).1 = SystemExit 1.
Proof.
  destruct (run_cases p) as [H Hrun|key Hv Hb Hrun|key e Hv Hb Ha Hrun
                            |key cs Hv Hb Ha H Hn Hrun|key r cs e Hv Hb Ha Hf Hrun];
    rewrite Hrun; auto.
Qed.

(** ** What each way of running shows *)

Lemma observed_no_credential (p : process) :
  truthy (credential p) = false →
  stdout_of p = [] ∧ stderr_of p = credential_missing_line ∧
  exit_code p = 1%Z ∧
  run_trace p = [EnvironGet "ZHIPUAI_API_KEY"; Write stderr credential_missing_line].
Proof.
  intros H. destruct (run_observed _ _ _ (run_no_credential p H)) as [Hx Ht].
  unfold stdout_of, stderr_of. by rewrite Hx, Ht.
Qed.

Lemma observed_blank (p : process) (key : str) :
  valid_credential p key → blank (p_stdin p) →
  stdout_of p = [] ∧ stderr_of p = empty_prompt_line ∧ exit_code p = 1%Z ∧
  network_calls p = [].
Proof.
  intros Hv Hb.
  destruct (run_observed _ _ _ (run_blank p key Hv Hb)) as [Hx Ht].
  unfold stdout_of, stderr_of, network_calls. by rewrite Hx, Ht.
Qed.

Lemma observed_create_raises (p : process) (key : str) (e : exception) :
  valid_credential p key → ¬ blank (p_stdin p) →
  answer p key = CreateRaises e →
  stdout_of p = [] ∧ stderr_of p = api_error_line e ∧ exit_code p = 1%Z ∧
  network_calls p = [Create (ZhipuAI (Some key)) (the_request p)].
Proof.
  intros Hv Hb Ha.
  destruct (run_observed _ _ _ (run_create_raises p key e Hv Hb Ha)) as [Hx Ht].
  unfold stdout_of, stderr_of, network_calls, written. rewrite Hx, Ht.
  cbn [trace after_read]. rewrite !writes_to_app, !writes_dispatch.
  split_and!; try done. simpl. by rewrite app_nil_r.
Qed.

Lemma observed_completes (p : process) (key : str) (cs : list chunk) :
  valid_credential p key → ¬ blank (p_stdin p) →
  answer p key = CreateReturns (stream_of cs StopIteration) →
  Forall (relayed (stdout_codec p)) cs →
  printable (stdout_codec p) NL →
  stdout_of p = concat (map delta_text cs) ++ NL ∧
  writes_to stdout (run_trace p) = deltas cs ++ [NL] ∧
  stderr_of p = [] ∧
  exit_code p = 0%Z.
Proof.
  intros Hv Hb Ha H Hn.
  destruct (run_observed _ _ _ (run_completes p key cs Hv Hb Ha H Hn)) as [Hx Ht].
  unfold stdout_of, stderr_of, written. rewrite Hx, Ht. cbn [trace after_read].
  destruct (writes_streaming p key cs [Next; Write stdout NL]) as [-> ->].
  split_and!; try done.
  rewrite concat_app, concat_deltas. by f_equal.
Qed.

Lemma observed_relay_fails (p : process) (key : str) (r : response)
      (cs : list chunk) (e : exception) :
  valid_credential p key → ¬ blank (p_stdin p) →
  answer p key = CreateReturns r → relay_fails (stdout_codec p) r cs e →
  stdout_of p = concat (map delta_text cs) ∧
  writes_to stdout (run_trace p) = deltas cs ∧
  stderr_of p = api_error_line e ∧
  writes_to stderr (run_trace p) = [api_error_line e] ∧
  exit_code p = 1%Z ∧
  length (network_calls p) = (length cs + 2)%nat ∧
  last (run_trace p) = Some (Write stderr (api_error_line e)).
Proof.
  intros Hv Hb Ha Hf.
  destruct (run_observed _ _ _ (run_relay_fails p key r cs e Hv Hb Ha Hf)) as [Hx Ht].
  unfold stdout_of, stderr_of, network_calls, written. rewrite Hx, Ht.
  cbn [trace after_read].
  destruct (writes_streaming p key cs [Next; Write stderr (api_error_line e)])
    as [-> ->].
  split_and!; try done.
  - by rewrite app_nil_r, concat_deltas.
  - by rewrite app_nil_r.
  - simpl. by rewrite app_nil_r.
  - unfold dispatch, prologue. cbn [app].
    rewrite !filter_cons_False by done. rewrite filter_cons_True by done.
    cbn [length]. rewrite network_relay_events. simpl. lia.
  - rewrite !app_assoc.
    change [Next; Write stderr (api_error_line e)]
      with ([Next] ++ [Write stderr (api_error_line e)]).
    rewrite app_assoc. apply last_snoc.
Qed.

(** ** Missing credential *)

(** C3. When the credential variable is absent from the environment or
    holds the empty text, the run writes the credential-missing
    diagnostic — and nothing else — to standard error, exits with
    status 1 and performs no interaction with the remote service. *)
Theorem missing_credential_exit (p : process) :
  (credential p = None ∨ credential p = Some []) →
  stderr_of p = credential_missing_line ∧
  exit_code p = 1%Z ∧
  network_calls p = [].
Proof.
  intros H. apply truthy_false in H.
  destruct (run_observed _ _ _ (run_no_credential p H)) as [Hx Ht].
  unfold stderr_of, network_calls. rewrite Hx, Ht.
  split_and!; reflexivity.
Qed.

(** ** Empty prompt *)

(** C4. With a credential present, when standard input consists of
    whitespace only (the empty input included), the run writes the
    empty-prompt diagnostic to standard error, exits with status 1 and
    performs no interaction with the remote service. *)
Theorem blank_prompt_exit (p : process) (key : str) :
  valid_credential p key →
  blank (p_stdin p) →
  stderr_of p = empty_prompt_line ∧
  exit_code p = 1%Z ∧
  network_calls p = [].
Proof.
  intros Hv Hb.
  destruct (run_observed _ _ _ (run_blank p key Hv Hb)) as [Hx Ht].
  unfold stderr_of, network_calls. rewrite Hx, Ht.
  split_and!; reflexivity.
Qed.

(** ** Dispatch *)

(** C5. A run with a credential and a prompt that is not whitespace-only
    issues exactly one chat-completion request: for the model
    ["glm-4-plus"], with [stream=True], and with a single message whose
    role is ["user"] and whose content is the text read from standard
    input, untrimmed.  The client carries the credential. *)
Theorem one_request (p : process) (key : str) :
  valid_credential p key →
  ¬ blank (p_stdin p) →
  requests p =
  [(ZhipuAI (Some key),
    Request (lit "glm-4-plus") [Message (lit "user") (p_stdin p)] true)].
Proof.
  intros Hv Hb. unfold requests.
  destruct (answer p key) as [e|r] eqn:Ha.
  - destruct (run_observed _ _ _ (run_create_raises p key e Hv Hb Ha)) as [_ ->].
    reflexivity.
  - destruct (relay_fails_or_completes (stdout_codec p) r)
      as [(cs & H & Hn & ->)|(cs & e & Hf)].
    + destruct (run_observed _ _ _ (run_completes p key cs Hv Hb Ha H Hn)) as [_ ->].
      cbn [trace after_read]. apply requests_streaming.
    + destruct (run_observed _ _ _ (run_relay_fails p key _ cs e Hv Hb Ha Hf))
        as [_ ->].
      cbn [trace after_read]. apply requests_streaming.
Qed.

(** ** Relay of a stream that ends *)

(** C1, as the code has it.  For a run with a credential and a prompt
    that is not whitespace-only, when the service returns a response
    that hands out finitely many chunks and then ends, each chunk
    carrying at least one choice, and standard output can encode the
    deltas and the newline: standard output receives the deltas that
    are present and not empty, one write each and in arrival order,
    followed by one newline, so that its content is their concatenation
    and the newline; nothing goes to standard error and the exit status
    is 0. *)
Theorem relay_to_stdout (p : process) (key : str) (cs : list chunk) :
  valid_credential p key →
  ¬ blank (p_stdin p) →
  answer p key = CreateReturns (stream_of cs StopIteration) →
  Forall has_choice cs →
  Forall (printable (stdout_codec p)) (deltas cs) →
  printable (stdout_codec p) NL →
  stdout_of p = concat (deltas cs) ++ NL ∧
  writes_to stdout (run_trace p) = deltas cs ++ [NL] ∧
  stderr_of p = [] ∧
  exit_code p = 0%Z.
Proof.
  intros Hv Hb Ha Hcs Hp Hn.
  destruct (observed_completes p key cs Hv Hb Ha (relayed_intro _ _ Hcs Hp) Hn)
    as (-> & -> & -> & ->).
  by rewrite concat_deltas.
Qed.

(** ** A stream that raises *)

(** C2, as the code has it.  For a run in which the response raises the
    exception [e] after having handed out the chunks [cs], each of
    which was relayed (it carries a choice, and standard output can
    encode its delta): standard output holds everything written before
    the failure, standard error receives exactly one diagnostic, written
    in one piece and made of the API-error marker, the text of [e] and a
    newline, and the exit status is 1.  The diagnostic is one line when
    the text of [e] holds no newline. *)
Theorem stream_error_reported (p : process) (key : str)
        (cs : list chunk) (e : exception) :
  valid_credential p key →
  ¬ blank (p_stdin p) →
  answer p key = CreateReturns (stream_of cs (NextRaises e)) →
  Forall has_choice cs →
  Forall (printable (stdout_codec p)) (deltas cs) →
  stdout_of p = concat (deltas cs) ∧
  writes_to stderr (run_trace p) = [api_error_marker ++ exc_str e ++ NL] ∧
  stderr_of p = api_error_marker ++ exc_str e ++ NL ∧
  exit_code p = 1%Z ∧
  (0x0A ∉ exc_str e → newlines (stderr_of p) = 1%nat).
Proof.
  intros Hv Hb Ha Hcs Hp.
  destruct (observed_relay_fails p key _ cs e Hv Hb Ha
              (fails_raise _ _ _ _ (relayed_intro _ _ Hcs Hp) eq_refl))
    as (-> & _ & -> & -> & -> & _).
  split_and!; try done; [by rewrite concat_deltas |].
  intros Hnl. unfold api_error_line.
  by rewrite !newlines_app, (newlines_none _ Hnl).
Qed.

(** C10. For a run in which the response raises after zero or more
    chunks that were relayed, the writes to standard output are exactly
    the non-empty deltas handed out before the failure: the trailing
    newline of the successful path is not written, and standard output
    is the concatenation of those deltas with nothing appended. *)
Theorem no_newline_after_error (p : process) (key : str)
        (cs : list chunk) (e : exception) :
  valid_credential p key →
  ¬ blank (p_stdin p) →
  answer p key = CreateReturns (stream_of cs (NextRaises e)) →
  Forall has_choice cs →
  Forall (printable (stdout_codec p)) (deltas cs) →
  writes_to stdout (run_trace p) = deltas cs ∧
  stdout_of p = concat (deltas cs) ∧
  last (run_trace p) = Some (Write stderr (api_error_line e)).
Proof.
  intros Hv Hb Ha Hcs Hp.
  destruct (observed_relay_fails p key _ cs e Hv Hb Ha
              (fails_raise _ _ _ _ (relayed_intro _ _ Hcs Hp) eq_refl))
    as (-> & -> & _ & _ & _ & _ & ->).
  by rewrite concat_deltas.
Qed.

(** ** Exit status *)

Lemma category_no_credential (p : process) :
  truthy (credential p) = false → category p = configuration_error.
Proof. unfold category. by destruct (credential p) as [[|]|]. Qed.

Lemma category_valid (p : process) (key : str) :
  valid_credential p key →
  category p =
  if decide (blank (p_stdin p)) then empty_input_error
  else match answer p key with
       | CreateRaises _ => api_error
       | CreateReturns r =>
           if completes (stdout_codec p) r then success else api_error
       end.
Proof. unfold category. intros [-> Hk]. by destruct key. Qed.

(** The outcome of each of the five ways. *)
Lemma category_of_case (p : process) :
  (truthy (credential p) = false → category p = configuration_error) ∧
  (∀ key, valid_credential p key → blank (p_stdin p) →
          category p = empty_input_error) ∧
  (∀ key e, valid_credential p key → ¬ blank (p_stdin p) →
            answer p key = CreateRaises e → category p = api_error) ∧
  (∀ key cs, valid_credential p key → ¬ blank (p_stdin p) →
             answer p key = CreateReturns (stream_of cs StopIteration) →
             Forall (relayed (stdout_codec p)) cs →
             printable (stdout_codec p) NL → category p = success) ∧
  (∀ key r cs e, valid_credential p key → ¬ blank (p_stdin p) →
                 answer p key = CreateReturns r →
                 relay_fails (stdout_codec p) r cs e → category p = api_error).
Proof.
  split_and!.
  - apply category_no_credential.
  - intros key Hv Hb. by rewrite (category_valid p key Hv), decide_True.
  - intros key e Hv Hb Ha. by rewrite (category_valid p key Hv), decide_False, Ha.
  - intros key cs Hv Hb Ha H Hn.
    by rewrite (category_valid p key Hv), decide_False, Ha, completes_ends.
  - intros key r cs e Hv Hb Ha Hf.
    rewrite (category_valid p key Hv), decide_False, Ha by done.
    by rewrite (completes_relay_fails _ _ _ _ Hf).
Qed.

(** Exit status and standard error, outcome by outcome. *)
Lemma run_by_category (p : process) :
  match category p with
  | success => exit_code p = 0%Z ∧ stderr_of p = []
  | configuration_error =>
      exit_code p = 1%Z ∧ stderr_of p = credential_missing_line
  | empty_input_error => exit_code p = 1%Z ∧ stderr_of p = empty_prompt_line
  | api_error => exit_code p = 1%Z ∧ ∃ e, stderr_of p = api_error_line e
  end.
Proof.
  destruct (category_of_case p) as (C1 & C2 & C3 & C4 & C5).
  destruct (run_cases p) as [H Hrun|key Hv Hb Hrun|key e Hv Hb Ha Hrun
                            |key cs Hv Hb Ha H Hn Hrun|key r cs e Hv Hb Ha Hf Hrun].
  - rewrite (C1 H). by destruct (observed_no_credential p H) as (_ & -> & -> & _).
  - rewrite (C2 key Hv Hb).
    by destruct (observed_blank p key Hv Hb) as (_ & -> & -> & _).
  - rewrite (C3 key e Hv Hb Ha).
    destruct (observed_create_raises p key e Hv Hb Ha) as (_ & -> & -> & _).
    by eauto.
  - rewrite (C4 key cs Hv Hb Ha H Hn).
    by destruct (observed_completes p key cs Hv Hb Ha H Hn) as (_ & _ & -> & ->).
  - rewrite (C5 key r cs e Hv Hb Ha Hf).
    destruct (observed_relay_fails p key r cs e Hv Hb Ha Hf)
      as (_ & _ & -> & _ & -> & _).
    by eauto.
Qed.

Lemma outcome_of_stderr_run (p : process) :
  outcome_of_stderr (stderr_of p) = category p.
Proof.
  pose proof (run_by_category p) as H.
  destruct (category p); destruct H as [_ H]; try (by rewrite H).
  destruct H as [e ->]. reflexivity.
Qed.

(** C6. The exit status is 0 exactly for the runs that succeed — the
    credential is present, the prompt is not whitespace-only and the
    response is consumed to its end, every delta and the final newline
    having been written — and 1 for each of the three failures.  Two
    failing runs always have the same exit status; what tells the
    outcomes apart is standard error: two runs with the same standard
    error have the same outcome. *)
Theorem exit_status_by_outcome (p q : process) :
  (exit_code p = 0%Z ↔ category p = success) ∧
  (category p ≠ success → exit_code p = 1%Z) ∧
  (category p ≠ success → category q ≠ success → exit_code p = exit_code q) ∧
  (stderr_of p = stderr_of q → category p = category q).
Proof.
  pose proof (run_by_category p) as Hp. pose proof (run_by_category q) as Hq.
  split_and!.
  - destruct (category p); destruct Hp as [-> _]; done.
  - intros Hne. destruct (category p); destruct Hp as [-> _]; done.
  - intros Hnp Hnq.
    destruct (category p); destruct Hp as [-> _]; try done;
      destruct (category q); destruct Hq as [-> _]; done.
  - intros Herr.
    rewrite <- (outcome_of_stderr_run p), <- (outcome_of_stderr_run q).
    by rewrite Herr.
Qed.

(** ** Determinism *)

(** A run is determined by the credential it finds, the codec of
    standard output, the text on standard input and what the service
    answers to the one request. *)
Lemma run_depends_on (p q : process) :
  credential p = credential q →
  (∀ d, stdout_codec p d = stdout_codec q d) →
  p_stdin p = p_stdin q →
  (∀ key, answer p key = answer q key) →
  run_trace p = run_trace q ∧ exit_code p = exit_code q.
Proof.
  intros Hc Hu Hs Ha.
  assert (Hd : ∀ key, dispatch p key = dispatch q key).
  { intros key. unfold dispatch, the_request. by rewrite Hs. }
  assert (Hrel : ∀ cs, Forall (relayed (stdout_codec p)) cs →
                       Forall (relayed (stdout_codec q)) cs).
  { intros cs H. eapply Forall_impl; [exact H |].
    intros c [H1 H2]. split; [done |].
    intros Hne. unfold printable. rewrite <- Hu. by apply H2. }
  assert (Hfl : ∀ r cs e, relay_fails (stdout_codec p) r cs e →
                          relay_fails (stdout_codec q) r cs e).
  { intros r cs e [H Hr|c rest H Hc' Hr He|c rest H Hc' Hne Hx Hr|H Hx Hr].
    - apply fails_raise; auto.
    - apply (fails_index _ _ _ _ c rest); auto.
    - apply (fails_print _ _ _ _ c rest); auto. by rewrite <- Hu.
    - apply fails_newline; auto. by rewrite <- Hu. }
  destruct (run_cases p) as [H Hrun|key Hv Hb Hrun|key e Hv Hb Hap Hrun
                            |key cs Hv Hb Hap H Hn Hrun|key r cs e Hv Hb Hap Hf Hrun];
    destruct (run_observed _ _ _ Hrun) as [-> ->]; cbn [trace after_read].
  - rewrite Hc in H.
    by destruct (run_observed _ _ _ (run_no_credential q H)) as [-> ->].
  - assert (Hvq : valid_credential q key) by (destruct Hv; split; congruence).
    rewrite Hs in Hb.
    by destruct (run_observed _ _ _ (run_blank q key Hvq Hb)) as [-> ->].
  - assert (Hvq : valid_credential q key) by (destruct Hv; split; congruence).
    rewrite Hs in Hb. rewrite Ha in Hap.
    destruct (run_observed _ _ _ (run_create_raises q key e Hvq Hb Hap)) as [-> ->].
    cbn [trace after_read]. by rewrite Hd.
  - assert (Hvq : valid_credential q key) by (destruct Hv; split; congruence).
    rewrite Hs in Hb. rewrite Ha in Hap.
    assert (Hnq : printable (stdout_codec q) NL)
      by (unfold printable; by rewrite <- Hu).
    destruct (run_observed _ _ _ (run_completes q key cs Hvq Hb Hap (Hrel _ H) Hnq))
      as [-> ->].
    cbn [trace after_read]. by rewrite Hd.
  - assert (Hvq : valid_credential q key) by (destruct Hv; split; congruence).
    rewrite Hs in Hb. rewrite Ha in Hap.
    destruct (run_observed _ _ _
                (run_relay_fails q key r cs e Hvq Hb Hap (Hfl _ _ _ Hf))) as [-> ->].
    cbn [trace after_read]. by rewrite Hd.
Qed.

(** C7. Two runs in identical environments, with identical standard
    input and a service that gives the same answer to every request,
    perform the same interactions: their standard outputs are identical
    and so are their exit statuses. *)
Theorem runs_repeat (p q : process) :
  p_environ p = p_environ q →
  p_stdin p = p_stdin q →
  (∀ c req, p_remote p c req = p_remote q c req) →
  stdout_of p = stdout_of q ∧
  stderr_of p = stderr_of q ∧
  exit_code p = exit_code q.
Proof.
  intros He Hs Hr.
  destruct (run_depends_on p q) as [Ht Hx].
  - unfold credential. by rewrite He.
  - intros d. unfold stdout_codec. by rewrite He.
  - done.
  - intros key. unfold answer, the_request. by rewrite Hr, Hs.
  - unfold stdout_of, stderr_of. by rewrite Ht, Hx.
Qed.

(** ** Order of operations *)

(** The life cycle every run goes through, by outcome. *)
Lemma lifecycle_run (p : process) :
  lifecycle (run_trace p) (exit_code p) =
  Some (match category p with success => Success | _ => Failed end) ∧
  (truthy (credential p) = false → run_trace p =
     [EnvironGet "ZHIPUAI_API_KEY"; Write stderr credential_missing_line]) ∧
  (blank (p_stdin p) → network_calls p = []) ∧
  (category p ≠ success → ∃ d, last (run_trace p) = Some (Write stderr d)).
Proof.
  destruct (category_of_case p) as (C1 & C2 & C3 & C4 & C5).
  unfold lifecycle, network_calls.
  destruct (run_cases p) as [H Hrun|key Hv Hb Hrun|key e Hv Hb Ha Hrun
                            |key cs Hv Hb Ha H Hn Hrun|key r cs e Hv Hb Ha Hf Hrun];
    destruct (run_observed _ _ _ Hrun) as [-> ->]; cbn [trace after_read].
  - rewrite (C1 H). split_and!; try done. intros _. by eexists.
  - rewrite (C2 key Hv Hb). split_and!; try done.
    + intros Ht. by rewrite (truthy_valid p key Hv) in Ht.
    + intros _. eexists. apply last_snoc.
  - rewrite (C3 key e Hv Hb Ha). split_and!; try done.
    + intros Ht. by rewrite (truthy_valid p key Hv) in Ht.
    + intros _. eexists. apply last_snoc.
  - rewrite (C4 key cs Hv Hb Ha H Hn), advance_streaming.
    split_and!; try done.
    intros Ht. by rewrite (truthy_valid p key Hv) in Ht.
  - rewrite (C5 key r cs e Hv Hb Ha Hf), advance_streaming.
    split_and!; try done.
    + intros Ht. by rewrite (truthy_valid p key Hv) in Ht.
    + intros _. eexists.
      change [Next; Write stderr (api_error_line e)]
        with ([Next] ++ [Write stderr (api_error_line e)]).
      rewrite !app_assoc. apply last_snoc.
Qed.

(** C8. Every run follows the life cycle: its interactions, in order,
    take it from [Start] through configuration load, prompt read,
    dispatch and streaming, and it ends in [Success] (exit status 0) or
    in [Failed] (exit status 1).  A run of any of the three failing
    outcomes ends in [Failed], its last interaction being the diagnostic
    on standard error; a run that succeeds ends in [Success].  A
    diagnostic on standard error is the last interaction of its run, and
    that run exits with status 1: nothing is retried or resumed after a
    failure.  Without a credential the run fails before standard input
    is read and before any network interaction; with a whitespace-only
    prompt it fails before any network interaction. *)
Theorem fixed_order (p : process) :
  (lifecycle (run_trace p) (exit_code p) = Some Success ∨
   lifecycle (run_trace p) (exit_code p) = Some Failed) ∧
  (∀ d, Write stderr d ∈ run_trace p →
        last (run_trace p) = Some (Write stderr d) ∧ exit_code p = 1%Z) ∧
  ((credential p = None ∨ credential p = Some []) →
   (StdinRead ∉ run_trace p) ∧ network_calls p = []) ∧
  (blank (p_stdin p) → network_calls p = []) ∧
  lifecycle (run_trace p) (exit_code p) =
    Some (match category p with success => Success | _ => Failed end) ∧
  (category p ≠ success →
   exit_code p = 1%Z ∧ ∃ d, last (run_trace p) = Some (Write stderr d)).
Proof.
  destruct (lifecycle_run p) as (Hl & Hnone & Hblank & Hlast).
  split_and!.
  - rewrite Hl. destruct (category p); auto.
  - intros d Hin. unfold lifecycle in Hl.
    destruct (advance Start (run_trace p)) as [s|] eqn:Ha; [| done].
    destruct (advance_failure_last _ _ _ _ Ha Hin) as [Hlast' ->].
    split; [done |]. simpl in Hl.
    by destruct (bool_decide_reflect (exit_code p = 1%Z)).
  - intros H. apply truthy_false in H. unfold network_calls.
    rewrite (Hnone H). split; [| done].
    intros Hin. repeat (apply elem_of_cons in Hin as [Hin|Hin]; [done |]).
    by apply elem_of_nil in Hin.
  - done.
  - done.
  - intros Hne. split; [| auto].
    pose proof (run_by_category p) as Hc.
    destruct (category p); destruct Hc as [-> _]; done.
Qed.

(** ** The accumulator *)


(** * Further properties of the script *)

(** ** A chunk without choices *)

(** X1. When the response, after chunks [cs] that were relayed (each
    carries a choice, and standard output can encode its delta), hands
    out a chunk whose [choices] is empty, [chunk.choices[0]] raises and
    the handler reports it: standard error is the API-error marker
    followed by ["list index out of range"], the exit status is 1,
    standard output keeps the deltas of [cs] with no newline, and the
    rest of the stream is never asked for (one request and one step per
    chunk seen). *)
Theorem chunk_without_choice (p : process) (key : str)
        (cs : list chunk) (c : chunk) (rest : response) :
  valid_credential p key →
  ¬ blank (p_stdin p) →
  answer p key = CreateReturns (stream_of cs (NextChunk c rest)) →
  Forall has_choice cs →
  Forall (printable (stdout_codec p)) (deltas cs) →
  choices c = [] →
  stdout_of p = concat (map delta_text cs) ∧
  stderr_of p = api_error_marker ++ lit "list index out of range" ++ NL ∧
  exit_code p = 1%Z ∧
  length (network_calls p) = (length cs + 2)%nat.
Proof.
  intros Hv Hb Ha H Hp Hc.
  by destruct (observed_relay_fails p key _ cs _ Hv Hb Ha
                 (fails_index _ _ _ _ c rest (relayed_intro _ _ H Hp) Hc eq_refl eq_refl))
    as (-> & _ & -> & _ & -> & -> & _).
Qed.

(** ** A request that is refused *)

(** X2. When [create] itself raises [e], nothing is written to standard
    output, standard error is the API-error marker followed by the text
    of [e], the exit status is 1, and the one request is the only
    interaction with the service: no chunk is asked for. *)
Theorem create_error_reported (p : process) (key : str) (e : exception) :
  valid_credential p key →
  ¬ blank (p_stdin p) →
  answer p key = CreateRaises e →
  stdout_of p = [] ∧
  stderr_of p = api_error_marker ++ exc_str e ++ NL ∧
  exit_code p = 1%Z ∧
  network_calls p = [Create (ZhipuAI (Some key)) (the_request p)].
Proof. apply observed_create_raises. Qed.

(** ** Flushing *)

Lemma flushed_run (p : process) : flushed (run_trace p) = true.
Proof.
  destruct (run_cases p) as [H Hrun|key Hv Hb Hrun|key e Hv Hb Ha Hrun
                            |key cs Hv Hb Ha H Hn Hrun|key r cs e Hv Hb Ha Hf Hrun];
    destruct (run_observed _ _ _ Hrun) as [_ ->]; cbn [trace after_read];
    try reflexivity;
    unfold dispatch, prologue; cbn [app flushed];
    by rewrite flushed_relay_events.
Qed.

Lemma last_stdout_success (p : process) (d : str) :
  last (run_trace p) = Some (Write stdout d) → exit_code p = 0%Z.
Proof.
  destruct (run_cases p) as [H Hrun|key Hv Hb Hrun|key e Hv Hb Ha Hrun
                            |key cs Hv Hb Ha H Hn Hrun|key r cs e Hv Hb Ha Hf Hrun];
    destruct (run_observed _ _ _ Hrun) as [-> ->]; cbn [trace after_read];
    try done.
  change [Next; Write stderr (api_error_line e)]
    with ([Next] ++ [Write stderr (api_error_line e)]).
  by rewrite !app_assoc, last_snoc.
Qed.

(** X3. In every run, whatever is written to standard output is not
    empty and is flushed immediately, before anything else happens; the
    one exception is a newline that is the very last interaction, and
    then the run exits with status 0. *)
Theorem writes_are_flushed (p : process) (t1 t2 : list event) (d : str) :
  run_trace p = t1 ++ Write stdout d :: t2 →
  d ≠ [] ∧
  ((∃ t3, t2 = Flush stdout :: t3) ∨
   (t2 = [] ∧ d = NL ∧ exit_code p = 0%Z)).
Proof.
  intros Ht.
  destruct (flushed_split _ t1 t2 d (flushed_run p) Ht) as [Hd [Hfl|[-> ->]]].
  - by split; [| left].
  - split; [done |]. right. split_and!; try done.
    apply (last_stdout_success p NL). rewrite Ht. apply last_snoc.
Qed.

(** ** The credential stays with the client *)

Lemma relay_fails_ext (u u' : str → option exception)
      (r : response) (cs : list chunk) (e : exception) :
  (∀ d, u d = u' d) → relay_fails u r cs e → relay_fails u' r cs e.
Proof.
  intros Hu.
  assert (Hrel : Forall (relayed u) cs → Forall (relayed u') cs).
  { intros H. eapply Forall_impl; [exact H |].
    intros c [H1 H2]. split; [done |].
    intros Hne. unfold printable. rewrite <- Hu. by apply H2. }
  intros [H Hr|c rest H Hc' Hr He|c rest H Hc' Hne Hx Hr|H Hx Hr].
  - apply fails_raise; auto.
  - apply (fails_index _ _ _ _ c rest); auto.
  - apply (fails_print _ _ _ _ c rest); auto. by rewrite <- Hu.
  - apply fails_newline; auto. by rewrite <- Hu.
Qed.

Lemma relayed_ext (u u' : str → option exception) (cs : list chunk) :
  (∀ d, u d = u' d) → Forall (relayed u) cs → Forall (relayed u') cs.
Proof.
  intros Hu H. eapply Forall_impl; [exact H |].
  intros c [H1 H2]. split; [done |].
  intros Hne. unfold printable. rewrite <- Hu. by apply H2.
Qed.

(** X4. The credential is handed to the client and goes nowhere else:
    two runs whose environments differ in the credential only, with the
    same codec on standard output, the same standard input and the same
    answer from the service, write the same standard output and
    standard error and exit with the same status, whatever their
    (non-empty) credentials are. *)
Theorem credential_not_echoed (p q : process) (kp kq : str) :
  valid_credential p kp →
  valid_credential q kq →
  (∀ name, name ≠ "ZHIPUAI_API_KEY" → p_environ p !! name = p_environ q !! name) →
  (∀ d, stdout_codec p d = stdout_codec q d) →
  p_stdin p = p_stdin q →
  answer p kp = answer q kq →
  stdout_of p = stdout_of q ∧
  stderr_of p = stderr_of q ∧
  exit_code p = exit_code q.
Proof.
  intros Hp Hq _ Hu Hs Ha.
  destruct (decide (blank (p_stdin p))) as [Hb|Hb].
  { destruct (observed_blank p kp Hp Hb) as (-> & -> & -> & _).
    rewrite Hs in Hb.
    by destruct (observed_blank q kq Hq Hb) as (-> & -> & -> & _). }
  assert (Hbq : ¬ blank (p_stdin q)) by (by rewrite <- Hs).
  destruct (answer p kp) as [e|r] eqn:Hap; symmetry in Ha.
  { destruct (observed_create_raises p kp e Hp Hb Hap) as (-> & -> & -> & _).
    by destruct (observed_create_raises q kq e Hq Hbq Ha) as (-> & -> & -> & _). }
  destruct (relay_fails_or_completes (stdout_codec p) r)
    as [(cs & H & Hn & ->)|(cs & e & Hf)].
  - destruct (observed_completes p kp cs Hp Hb Hap H Hn) as (-> & _ & -> & ->).
    assert (Hnq : printable (stdout_codec q) NL)
      by (unfold printable; by rewrite <- Hu).
    by destruct (observed_completes q kq cs Hq Hbq Ha (relayed_ext _ _ _ Hu H) Hnq)
      as (-> & _ & -> & ->).
  - destruct (observed_relay_fails p kp r cs e Hp Hb Hap Hf)
      as (-> & _ & -> & _ & -> & _).
    by destruct (observed_relay_fails q kq r cs e Hq Hbq Ha
                   (relay_fails_ext _ _ _ _ _ Hu Hf))
      as (-> & _ & -> & _ & -> & _).
Qed.

(** ** Standard error and the exit status *)

(** X6. Standard error is empty exactly when the exit status is 0; and
    a run that exits with status 0 has written a standard output that
    ends with a newline. *)
Theorem silent_iff_success (p : process) :
  (exit_code p = 0%Z ↔ stderr_of p = []) ∧
  (exit_code p = 0%Z → last (stdout_of p) = Some 0x0A).
Proof.
  split.
  - pose proof (run_by_category p) as H.
    destruct (diagnostics_not_empty boom) as (Dc & Dp & _).
    destruct (category p).
    + by destruct H as [-> ->].
    + destruct H as [-> ->]. by split.
    + destruct H as [-> ->]. by split.
    + destruct H as [-> [e ->]].
      destruct (diagnostics_not_empty e) as (_ & _ & De). by split.
  - destruct (run_cases p) as [H Hrun|key Hv Hb Hrun|key e Hv Hb Ha Hrun
                              |key cs Hv Hb Ha H Hn Hrun|key r cs e Hv Hb Ha Hf Hrun].
    1,2,3,5: destruct (run_observed _ _ _ Hrun) as [-> _]; done.
    intros _.
    destruct (observed_completes p key cs Hv Hb Ha H Hn) as (-> & _ & _ & _).
    apply last_snoc.
Qed.

(** ** What a diagnostic tells *)

Lemma category_configuration (p : process) :
  category p = configuration_error ↔ truthy (credential p) = false.
Proof.
  split; [| apply category_no_credential].
  unfold category. destruct (credential p) as [[|k0 key]|]; try done.
  destruct (decide _); [done |].
  destruct (answer p (k0 :: key)) as [|r]; [done |].
  by destruct (completes _ r).
Qed.

Lemma category_empty_input (p : process) :
  category p = empty_input_error ↔
  ∃ key, valid_credential p key ∧ blank (p_stdin p).
Proof.
  split.
  - unfold category. destruct (credential p) as [[|k0 key]|] eqn:Hc; try done.
    destruct (decide _) as [Hb|Hb].
    + intros _. by exists (k0 :: key).
    + destruct (answer p (k0 :: key)) as [|r]; [done |].
      by destruct (completes _ r).
  - intros (key & Hv & Hb). by rewrite (category_valid p key Hv), decide_True.
Qed.

(** X7. The diagnostics name their cause.  Standard error is the
    credential-missing line exactly when the variable is absent or
    empty, and the empty-prompt line exactly when a credential is
    present and standard input is whitespace-only. *)
Theorem diagnostic_names_cause (p : process) :
  (stderr_of p = credential_missing_line ↔
   credential p = None ∨ credential p = Some []) ∧
  (stderr_of p = empty_prompt_line ↔
   ∃ key, valid_credential p key ∧ blank (p_stdin p)).
Proof.
  pose proof (run_by_category p) as Hrun.
  pose proof (outcome_of_stderr_run p) as Hout.
  split.
  - rewrite <- truthy_false, <- category_configuration. split.
    + intros H. by rewrite <- Hout, H.
    + intros H. rewrite H in Hrun. by destruct Hrun.
  - rewrite <- category_empty_input. split.
    + intros H. by rewrite <- Hout, H.
    + intros H. rewrite H in Hrun. by destruct Hrun.
Qed.

(** ** Chunk boundaries *)

(** X8. Standard output does not depend on how the service cuts the
    text into chunks: two runs whose responses end normally, whose
    chunks were all relayed (each carries a choice, and standard output
    can encode its delta and the newline) and whose deltas add up to
    the same text write the same standard output, namely that text and
    a newline. *)
Theorem chunking_irrelevant (p q : process) (kp kq : str) (cp cq : list chunk) :
  valid_credential p kp → ¬ blank (p_stdin p) →
  valid_credential q kq → ¬ blank (p_stdin q) →
  answer p kp = CreateReturns (stream_of cp StopIteration) →
  answer q kq = CreateReturns (stream_of cq StopIteration) →
  Forall has_choice cp → Forall has_choice cq →
  Forall (printable (stdout_codec p)) (deltas cp) →
  Forall (printable (stdout_codec q)) (deltas cq) →
  printable (stdout_codec p) NL → printable (stdout_codec q) NL →
  concat (map delta_text cp) = concat (map delta_text cq) →
  stdout_of p = stdout_of q ∧
  stdout_of p = concat (map delta_text cp) ++ NL.
Proof.
  intros Hp Hbp Hq Hbq Hap Haq Hcp Hcq Hpp Hpq Hnp Hnq Heq.
  destruct (observed_completes p kp cp Hp Hbp Hap (relayed_intro _ _ Hcp Hpp) Hnp)
    as (-> & _ & _).
  destruct (observed_completes q kq cq Hq Hbq Haq (relayed_intro _ _ Hcq Hpq) Hnq)
    as (-> & _ & _).
  by rewrite Heq.
Qed.

(** ** No exception escapes *)

(** X9. Whatever the client or the response raises, no exception leaves
    the script: a run ends by returning from [main] or through
    [sys.exit(1)], so its exit status is 0 or 1. *)
Theorem no_uncaught_exception (p : process) :
  (∀ e, (run p).1 ≠ Raised e) ∧
  (exit_code p = 0%Z ∨ exit_code p = 1%Z).
Proof.
  unfold exit_code. destruct (run_ends p) as [-> | ->]; split; auto; done.
Qed.

End Platform.

(** * Sample runs *)

(** The sample runs are those of the sample platform. *)

Ltac sample_valid := split; [reflexivity | discriminate].
Ltac sample_prompt := apply not_blank_intro; reflexivity.
Ltac sample_choices := repeat constructor; discriminate.
Ltac sample_printable := vm_compute; repeat constructor.

(** Each chunk is relayed, and flushed, before the next one is asked
    for; the chunk with the empty delta only costs a step. *)
Example hello_trace :
  run sample_platform hello_process =
  (Normal (),
   after_read sample_platform hello_process
     [EnvironGet "ZHIPUAI_API_KEY"; StdinRead;
      Create (ZhipuAI (Some (lit "secret")))
             (Request (lit "glm-4-plus")
                      [Message (lit "user") (lit "Say hello")] true);
      Next; Write stdout (lit "Hel"); Flush stdout;
      Next; Write stdout (lit "lo"); Flush stdout;
      Next;
      Next; Write stdout (lit " world"); Flush stdout;
      Next; Write stdout NL]).
Proof. vm_compute. reflexivity. Qed.

Example broken_trace :
  run sample_platform broken_process =
  (SystemExit 1,
   after_read sample_platform broken_process
     [EnvironGet "ZHIPUAI_API_KEY"; StdinRead;
      Create (ZhipuAI (Some (lit "secret")))
             (Request (lit "glm-4-plus")
                      [Message (lit "user") (lit "Say hello")] true);
      Next; Write stdout (lit "Hel"); Flush stdout;
      Next; Write stderr (lit "BŁĄD API GLM: connection reset" ++ NL)]).
Proof. vm_compute. reflexivity. Qed.

Example no_choice_trace :
  run sample_platform no_choice_process =
  (SystemExit 1,
   after_read sample_platform no_choice_process
     [EnvironGet "ZHIPUAI_API_KEY"; StdinRead;
      Create (ZhipuAI (Some (lit "secret")))
             (Request (lit "glm-4-plus")
                      [Message (lit "user") (lit "Say hello")] true);
      Next; Write stderr (lit "BŁĄD API GLM: list index out of range" ++ NL)]).
Proof. vm_compute. reflexivity. Qed.

(** The lone surrogate cannot be encoded: ["A"] has been written, the
    surrogate and ["B"] never are. *)
Example surrogate_trace :
  run sample_platform surrogate_process =
  (SystemExit 1,
   after_read sample_platform surrogate_process
     [EnvironGet "ZHIPUAI_API_KEY"; StdinRead;
      Create (ZhipuAI (Some (lit "secret")))
             (Request (lit "glm-4-plus")
                      [Message (lit "user") (lit "Say hello")] true);
      Next; Write stdout (lit "A"); Flush stdout;
      Next; Write stderr (lit "BŁĄD API GLM: surrogates not allowed" ++ NL)]).
Proof. vm_compute. reflexivity. Qed.

(** With [PYTHONIOENCODING=ascii] the delta ["é"] cannot be written. *)
Example ascii_exit_codes :
  exit_code sample_platform
    (Process sample_environ (lit "Say hello")
             (answering (stream_of [text_chunk (Some [0xE9])] StopIteration))) = 0%Z ∧
  exit_code sample_platform
    (Process (<["PYTHONIOENCODING" := lit "ascii"]> sample_environ)
             (lit "Say hello")
             (answering (stream_of [text_chunk (Some [0xE9])] StopIteration))) = 1%Z.
Proof. split; vm_compute; reflexivity. Qed.

Example sample_categories :
  map (category sample_platform)
      [hello_process; unset_process; empty_key_process;
       blank_process; broken_process; no_choice_process; surrogate_process] =
  [success; configuration_error; configuration_error;
   empty_input_error; api_error; api_error; api_error].
Proof. vm_compute. reflexivity. Qed.

Example sample_lifecycles :
  map (λ p, lifecycle (run_trace sample_platform p) (exit_code sample_platform p))
      [hello_process; unset_process; blank_process; broken_process;
       surrogate_process] =
  [Some Success; Some Failed; Some Failed; Some Failed; Some Failed].
Proof. vm_compute. reflexivity. Qed.

(** * The properties on the sample runs *)

Lemma missing_credential_exit_witness :
  (stderr_of sample_platform unset_process = credential_missing_line ∧
   exit_code sample_platform unset_process = 1%Z ∧
   network_calls sample_platform unset_process = []) ∧
  (stderr_of sample_platform empty_key_process = credential_missing_line ∧
   exit_code sample_platform empty_key_process = 1%Z ∧
   network_calls sample_platform empty_key_process = []).
Proof.
  split.
  - apply (missing_credential_exit sample_platform unset_process). left. reflexivity.
  - apply (missing_credential_exit sample_platform empty_key_process).
    right. reflexivity.
Defined.

Lemma blank_prompt_exit_witness :
  stderr_of sample_platform blank_process = empty_prompt_line ∧
  exit_code sample_platform blank_process = 1%Z ∧
  network_calls sample_platform blank_process = [].
Proof.
  apply (blank_prompt_exit sample_platform blank_process (lit "secret")).
  - sample_valid.
  - unfold blank. simpl. repeat constructor.
Defined.

Lemma one_request_witness :
  requests sample_platform hello_process =
  [(ZhipuAI (Some (lit "secret")),
    Request (lit "glm-4-plus") [Message (lit "user") (lit "Say hello")] true)].
Proof.
  apply (one_request sample_platform hello_process (lit "secret")).
  - sample_valid.
  - sample_prompt.
Defined.

Lemma relay_to_stdout_witness :
  stdout_of sample_platform hello_process = lit "Hello world" ++ NL ∧
  exit_code sample_platform hello_process = 0%Z.
Proof.
  destruct (relay_to_stdout sample_platform hello_process (lit "secret") hello_chunks)
    as (H & _ & _ & Hx).
  - sample_valid.
  - sample_prompt.
  - reflexivity.
  - unfold hello_chunks. sample_choices.
  - sample_printable.
  - reflexivity.
  - split; [rewrite H; reflexivity | exact Hx].
Defined.

(** The claim fails for a chunk that has no choice at all: such a chunk
    has no delta, yet it is not skipped.  Indexing its [choices] raises
    [IndexError]; the handler reports it as an API error and the run
    exits with status 1 before the trailing newline is written.  It
    fails as well for a delta standard output cannot encode: the
    deltas ["A"], a lone surrogate and ["B"] leave ["A"] alone on
    standard output, and the run exits with status 1. *)
Lemma relay_to_stdout_counterexample :
  (valid_credential no_choice_process (lit "secret") ∧
   ¬ blank (p_stdin no_choice_process) ∧
   answer no_choice_process (lit "secret") =
     CreateReturns (stream_of [Chunk []] StopIteration) ∧
   concat (deltas [Chunk []]) ++ NL = NL ∧
   stdout_of sample_platform no_choice_process = [] ∧
   stdout_of sample_platform no_choice_process ≠ concat (deltas [Chunk []]) ++ NL ∧
   stderr_of sample_platform no_choice_process =
     api_error_marker ++ lit "list index out of range" ++ NL ∧
   exit_code sample_platform no_choice_process = 1%Z) ∧
  (valid_credential surrogate_process (lit "secret") ∧
   ¬ blank (p_stdin surrogate_process) ∧
   answer surrogate_process (lit "secret") =
     CreateReturns (stream_of surrogate_chunks StopIteration) ∧
   concat (deltas surrogate_chunks) ++ NL = [0x41; 0xD83D; 0x42; 0x0A] ∧
   stdout_of sample_platform surrogate_process = [0x41] ∧
   stdout_of sample_platform surrogate_process ≠
     concat (deltas surrogate_chunks) ++ NL ∧
   exit_code sample_platform surrogate_process = 1%Z).
Proof.
  split.
  - split; [sample_valid |].
    split; [sample_prompt |].
    split; [reflexivity |].
    split; [reflexivity |].
    split; [reflexivity |].
    split; [vm_compute; discriminate |].
    split; reflexivity.
  - split; [sample_valid |].
    split; [sample_prompt |].
    split; [reflexivity |].
    split; [reflexivity |].
    split; [reflexivity |].
    split; [vm_compute; discriminate | reflexivity].
Qed.

Lemma stream_error_reported_witness :
  stdout_of sample_platform broken_process = lit "Hel" ∧
  stderr_of sample_platform broken_process =
    lit "BŁĄD API GLM: connection reset" ++ NL ∧
  exit_code sample_platform broken_process = 1%Z ∧
  newlines (stderr_of sample_platform broken_process) = 1%nat.
Proof.
  destruct (stream_error_reported sample_platform broken_process (lit "secret")
              [text_chunk (Some (lit "Hel"))] boom)
    as (Ho & _ & He & Hx & Hl).
  - sample_valid.
  - sample_prompt.
  - reflexivity.
  - sample_choices.
  - sample_printable.
  - split_and!; [rewrite Ho; reflexivity | rewrite He; reflexivity | exact Hx |].
    apply Hl. vm_compute. intros H.
    repeat (apply elem_of_cons in H as [H|H]; [discriminate H |]).
    by apply elem_of_nil in H.
Defined.

(** The claim fails for an exception whose text holds a newline: the
    one diagnostic then takes two lines. *)
Lemma stream_error_reported_counterexample :
  valid_credential two_lines_process (lit "secret") ∧
  ¬ blank (p_stdin two_lines_process) ∧
  answer two_lines_process (lit "secret") =
    CreateReturns (stream_of [text_chunk (Some (lit "Hel"))] (NextRaises two_lines)) ∧
  stdout_of sample_platform two_lines_process = lit "Hel" ∧
  stderr_of sample_platform two_lines_process =
    lit "BŁĄD API GLM: Server error '500'" ++ NL ++
    lit "For more information check the status page" ++ NL ∧
  newlines (stderr_of sample_platform two_lines_process) = 2%nat ∧
  exit_code sample_platform two_lines_process = 1%Z.
Proof.
  split; [sample_valid |].
  split; [sample_prompt |].
  split_and!; vm_compute; reflexivity.
Qed.

(** The stream raises on its first step: nothing at all is written to
    standard output.  After the chunk ["Hel"]: only ["Hel"]. *)
Lemma no_newline_after_error_witness :
  stdout_of sample_platform
    (Process sample_environ (lit "Say hello") (answering (NextRaises boom))) = [] ∧
  writes_to stdout (run_trace sample_platform broken_process) = [lit "Hel"].
Proof.
  split.
  - destruct (no_newline_after_error sample_platform
                (Process sample_environ (lit "Say hello")
                         (answering (NextRaises boom)))
                (lit "secret") [] boom) as (_ & H & _).
    + sample_valid.
    + sample_prompt.
    + reflexivity.
    + constructor.
    + constructor.
    + rewrite H. reflexivity.
  - destruct (no_newline_after_error sample_platform broken_process (lit "secret")
                [text_chunk (Some (lit "Hel"))] boom) as (H & _ & _).
    + sample_valid.
    + sample_prompt.
    + reflexivity.
    + sample_choices.
    + sample_printable.
    + rewrite H. reflexivity.
Defined.

(** The same stream served by two differently written mocks, to a
    process started twice. *)
Lemma runs_repeat_witness :
  stdout_of sample_platform hello_process =
  stdout_of sample_platform
    (Process sample_environ (lit "Say hello")
       (λ c req, if stream req
                 then CreateReturns (stream_of hello_chunks StopIteration)
                 else CreateReturns (stream_of hello_chunks StopIteration))) ∧
  exit_code sample_platform hello_process =
  exit_code sample_platform
    (Process sample_environ (lit "Say hello")
       (λ c req, if stream req
                 then CreateReturns (stream_of hello_chunks StopIteration)
                 else CreateReturns (stream_of hello_chunks StopIteration))).
Proof.
  destruct (runs_repeat sample_platform hello_process
              (Process sample_environ (lit "Say hello")
                 (λ c req, if stream req
                           then CreateReturns (stream_of hello_chunks StopIteration)
                           else CreateReturns (stream_of hello_chunks StopIteration))))
    as (Ho & _ & Hx).
  - reflexivity.
  - reflexivity.
  - intros c req. simpl. unfold answering. by destruct (stream req).
  - split; [exact Ho | exact Hx].
Defined.


Lemma chunk_without_choice_witness :
  stdout_of sample_platform truncated_process = lit "Hel" ∧
  stderr_of sample_platform truncated_process =
    lit "BŁĄD API GLM: list index out of range" ++ NL ∧
  exit_code sample_platform truncated_process = 1%Z ∧
  length (network_calls sample_platform truncated_process) = 3%nat.
Proof.
  destruct (chunk_without_choice sample_platform truncated_process (lit "secret")
              [text_chunk (Some (lit "Hel"))] (Chunk [])
              (stream_of [text_chunk (Some (lit "lo"))] StopIteration))
    as (Ho & He & Hx & Hn).
  - sample_valid.
  - sample_prompt.
  - reflexivity.
  - sample_choices.
  - sample_printable.
  - reflexivity.
  - split_and!; [rewrite Ho | rewrite He | exact Hx | rewrite Hn]; reflexivity.
Defined.

Lemma create_error_reported_witness :
  stdout_of sample_platform refused_process = [] ∧
  stderr_of sample_platform refused_process =
    lit "BŁĄD API GLM: connection reset" ++ NL ∧
  exit_code sample_platform refused_process = 1%Z.
Proof.
  destruct (create_error_reported sample_platform refused_process (lit "secret") boom)
    as (Ho & He & Hx & _).
  - sample_valid.
  - sample_prompt.
  - reflexivity.
  - split_and!; [exact Ho | rewrite He; reflexivity | exact Hx].
Defined.

(** In the sample run, ["lo"] is written after seven interactions and
    flushed before the next chunk is asked for. *)
Lemma writes_are_flushed_witness :
  lit "lo" ≠ [] ∧
  ((∃ t3, [Flush stdout; Next; Next; Write stdout (lit " world");
           Flush stdout; Next; Write stdout NL] = Flush stdout :: t3) ∨
   ([Flush stdout; Next; Next; Write stdout (lit " world");
     Flush stdout; Next; Write stdout NL] = [] ∧
    lit "lo" = NL ∧ exit_code sample_platform hello_process = 0%Z)).
Proof.
  apply (writes_are_flushed sample_platform hello_process
           (take 7 (run_trace sample_platform hello_process))).
  vm_compute. reflexivity.
Defined.

Lemma credential_not_echoed_witness :
  stdout_of sample_platform hello_process =
    stdout_of sample_platform other_key_process ∧
  stderr_of sample_platform hello_process =
    stderr_of sample_platform other_key_process ∧
  exit_code sample_platform hello_process =
    exit_code sample_platform other_key_process.
Proof.
  apply (credential_not_echoed sample_platform hello_process other_key_process
           (lit "secret") (lit "another")).
  - sample_valid.
  - sample_valid.
  - intros name Hne. unfold other_key_process. cbn [p_environ].
    by rewrite lookup_insert_ne.
  - reflexivity.
  - reflexivity.
  - reflexivity.
Defined.

Lemma chunking_irrelevant_witness :
  stdout_of sample_platform hello_process = stdout_of sample_platform other_process ∧
  stdout_of sample_platform hello_process = lit "Hello world" ++ NL.
Proof.
  destruct (chunking_irrelevant sample_platform hello_process other_process
              (lit "secret") (lit "another") hello_chunks rechunked)
    as [H1 H2].
  - sample_valid.
  - sample_prompt.
  - sample_valid.
  - sample_prompt.
  - reflexivity.
  - reflexivity.
  - unfold hello_chunks. sample_choices.
  - unfold rechunked. sample_choices.
  - sample_printable.
  - sample_printable.
  - reflexivity.
  - reflexivity.
  - reflexivity.
  - split; [exact H1 | rewrite H2; reflexivity].
Defined.
